(** * JamSync backend: the room registry (rooms.js), the socket event
      router and the HTTP routes (server.js), embedded and verified.

    The registry is the module-level object [rooms] of rooms.js, a plain
    JavaScript object used as a map from room identifier to a [Set] of socket
    identifiers.  Its own properties are a finite map; a lookup that finds no
    own property falls through to [Object.prototype], as it does for every
    object literal.  A [Set] is a finite set, and [Array.from] lists its
    elements in an order the model leaves open.

    The router is the body of [io.on('connection', ...)] in server.js; the
    other server files of the repository register the same handlers, except
    that their 'disconnecting' handler sends no roster.  The handlers run to
    completion one at a time, as state transformers that return or throw.

    socket.io is a dependency and not part of the repository.  Its rooms
    are modelled from its documented behaviour: a socket is in the room
    named by its own identifier from the moment it connects, [socket.join]
    adds it to a room, [socket.to(room).emit] reaches the sockets in the room
    other than the caller, [io.in(room).emit] reaches all of them, and a
    closing socket leaves its rooms after the 'disconnecting' handlers ran.

    The HTTP routes are functions of the request, of the environment
    variables and of what the request to Spotify comes back with. *)

From Stdlib Require Import ZArith Ascii String.
From stdpp Require Import base tactics option list strings pretty gmap sets fin_sets fin_maps.

Local Open Scope string_scope.

Set Warnings "-clear-no-such-hyp,-register-all".

(** ** JavaScript values that reach the handlers

    Room identifiers, display names and chat fields are strings sent by the
    client, or are missing, in which case the handler reads [undefined]. *)

Inductive jsval :=
  | undefined
  | jstr (s : string).

#[global] Instance jsval_eq_dec : EqDecision jsval.
Proof. solve_decision. Defined.

#[global] Instance jsval_countable : Countable jsval.
Proof.
  refine (inj_countable'
    (λ v, match v with undefined => None | jstr s => Some s end)
    (λ o, match o with None => undefined | Some s => jstr s end) _).
  by intros [].
Defined.

(** ToBoolean: [undefined] and the empty string are falsy. *)
Definition truthy (v : jsval) : bool :=
  match v with
  | undefined => false
  | jstr s => if decide (s = "") then false else true
  end.

(** [v || d] with a string default. *)
Definition js_or (v : jsval) (d : string) : string :=
  match v with
  | jstr s => if truthy v then s else d
  | undefined => d
  end.

(** ToPropertyKey: what [obj[v]] uses as the property name. *)
Definition to_key (v : jsval) : string :=
  match v with
  | undefined => "undefined"
  | jstr s => s
  end.

(** ** Exceptions and state *)

Inductive error :=
  | TypeError (msg : string).

Inductive result (A : Type) :=
  | Ok (a : A)
  | Throw (e : error).
Arguments Ok {A} a.
Arguments Throw {A} e.

(** A computation over a mutable store [S]: it returns or throws, and the
    store keeps whatever was written before a throw. *)
Definition M (S A : Type) : Type := S → result A * S.

Definition ret {S A} (a : A) : M S A := λ s, (Ok a, s).

Definition bind {S A B} (m : M S A) (k : A → M S B) : M S B :=
  λ s, match m s with
       | (Ok a, s') => k a s'
       | (Throw e, s') => (Throw e, s')
       end.

Notation "'let!' x ':=' m 'in' k" := (bind m (λ x, k))
  (at level 10, x name, m at level 100, k at level 200).
Notation "'run' m 'then' k" := (bind m (λ _, k))
  (at level 10, m at level 100, k at level 200).

(** [xs.forEach(f)]: the callback runs on each element in turn; a throw
    ends the loop. *)
Fixpoint forEach {S A} (xs : list A) (f : A → M S unit) : M S unit :=
  match xs with
  | [] => ret tt
  | x :: xs' => run f x then forEach xs' f
  end.

(** ** rooms.js *)

Module Rooms.

(** What [Object.prototype] contributes to a lookup on an object literal:
    its methods (with their [length]) and the [__proto__] accessor, whose
    value is [Object.prototype] itself. *)
Inductive inherited :=
  | Builtin (arity : nat)
  | ProtoObject.

Definition Object_prototype (key : string) : option inherited :=
  if decide (key = "constructor") then Some (Builtin 1)
  else if decide (key = "hasOwnProperty") then Some (Builtin 1)
  else if decide (key = "isPrototypeOf") then Some (Builtin 1)
  else if decide (key = "propertyIsEnumerable") then Some (Builtin 1)
  else if decide (key = "toLocaleString") then Some (Builtin 0)
  else if decide (key = "toString") then Some (Builtin 0)
  else if decide (key = "valueOf") then Some (Builtin 0)
  else if decide (key = "__defineGetter__") then Some (Builtin 2)
  else if decide (key = "__defineSetter__") then Some (Builtin 2)
  else if decide (key = "__lookupGetter__") then Some (Builtin 1)
  else if decide (key = "__lookupSetter__") then Some (Builtin 1)
  else if decide (key = "__proto__") then Some ProtoObject
  else None.

(** [const rooms = {}]: the own properties, each holding a [Set]. *)
Abbreviation registry := (gmap string (gset string)).

Definition empty_registry : registry := ∅.

(** The value of [rooms[roomId]]. *)
Inductive property :=
  | Absent
  | Members (s : gset string)
  | Inherited (i : inherited).

Definition get (rooms : registry) (roomId : string) : property :=
  match rooms !! roomId with
  | Some s => Members s
  | None =>
      match Object_prototype roomId with
      | Some i => Inherited i
      | None => Absent
      end
  end.

(** Sets, functions and objects are truthy; only [undefined] is not. *)
Definition present (p : property) : bool :=
  match p with
  | Absent => false
  | _ => true
  end.

(** [function addUserToRoom(roomId, socketId)] *)
Definition addUserToRoom (roomId socketId : string) : M registry unit :=
  λ rooms,
    let rooms1 :=
      if present (get rooms roomId) then rooms else <[roomId := ∅]> rooms in
    match get rooms1 roomId with
    | Members s => (Ok tt, <[roomId := s ∪ {[socketId]}]> rooms1)
    | _ => (Throw (TypeError "rooms[roomId].add is not a function"), rooms1)
    end.

(** [function removeUserFromRoom(roomId, socketId)] *)
Definition removeUserFromRoom (roomId socketId : string) : M registry unit :=
  λ rooms,
    match get rooms roomId with
    | Absent => (Ok tt, rooms)
    | Members s =>
        let s' := s ∖ {[socketId]} in
        if decide (size s' = 0)
        then (Ok tt, delete roomId rooms)
        else (Ok tt, <[roomId := s']> rooms)
    | Inherited _ =>
        (Throw (TypeError "rooms[roomId].delete is not a function"), rooms)
    end.

(** [Array.from(x)]: the elements of a [Set]; for a function, which is
    not iterable, as many holes as its [length]; nothing for an object
    without [length]. *)
Definition Array_from (p : property) : list jsval :=
  match p with
  | Members s => jstr <$> elements s
  | Inherited (Builtin n) => replicate n undefined
  | Inherited ProtoObject => []
  | Absent => []
  end.

(** [function getUsersInRoom(roomId)] *)
Definition getUsersInRoom (roomId : string) (rooms : registry) : list jsval :=
  if present (get rooms roomId) then Array_from (get rooms roomId) else [].

(** [Object.keys(rooms)], as a set. *)
Definition keys (rooms : registry) : gset string := dom rooms.

End Rooms.

Import Rooms.

(** ** [new Date().toISOString()]

    The clock gives a time value, milliseconds since the epoch; the string
    is built from its calendar fields as ECMAScript's [Date.prototype.toISOString]
    does. *)

Module Date.

Local Open Scope Z_scope.

Definition msPerDay : Z := 86400000.

Definition Day (t : Z) : Z := t / msPerDay.
Definition TimeWithinDay (t : Z) : Z := t mod msPerDay.

(** Year, month (1 to 12) and day of the month of a day number. *)
Definition civil (day : Z) : Z * Z * Z :=
  let z := day + 719468 in
  let era := z / 146097 in
  let doe := z - era * 146097 in
  let yoe := (doe - doe / 1460 + doe / 36524 - doe / 146096) / 365 in
  let doy := doe - (365 * yoe + yoe / 4 - yoe / 100) in
  let mp := (5 * doy + 2) / 153 in
  let d := doy - (153 * mp + 2) / 5 + 1 in
  let m := if mp <? 10 then mp + 3 else mp - 9 in
  let y := yoe + era * 400 + (if m <=? 2 then 1 else 0) in
  (y, m, d).

Definition digit (n : Z) : ascii := ascii_of_N (Z.to_N (48 + n mod 10)).

(** The last [width] decimal digits of [n], zero padded. *)
Fixpoint pad (width : nat) (n : Z) : string :=
  match width with
  | O => ""
  | S w => pad w (n / 10) +:+ String (digit n) ""
  end.

Definition year_string (y : Z) : string :=
  if (0 <=? y) && (y <=? 9999) then pad 4 y
  else if y <? 0 then "-" +:+ pad 6 (- y)
  else "+" +:+ pad 6 y.

Definition toISOString (t : Z) : string :=
  let '(y, m, d) := civil (Day t) in
  let ms := TimeWithinDay t in
  year_string y +:+ "-" +:+ pad 2 m +:+ "-" +:+ pad 2 d +:+ "T" +:+
  pad 2 (ms / 3600000) +:+ ":" +:+ pad 2 (ms / 60000 mod 60) +:+ ":" +:+
  pad 2 (ms / 1000 mod 60) +:+ "." +:+ pad 3 (ms mod 1000) +:+ "Z".

End Date.

(** ** socket.io, as the handlers use it

    The adapter records which socket is in which room.  A room is named by
    whatever value was passed to [socket.join], so [undefined] names a room
    like any string does, whereas the registry of rooms.js sees the same
    value as the property name ["undefined"]. *)

Module SocketIO.

(** The argument of an outgoing event. *)
Inductive payload :=
  | PText (s : string)
  | PUsers (users : list jsval)
  | PChat (sender : string) (message : jsval) (timestamp : string)
  | PData (data : gmap string jsval).

(** One call of [emit]: the room addressed, the sockets the adapter writes
    the packet to, the event name and its argument. *)
Record emission := Emission {
  target : jsval;
  recipients : gset string;
  kind : string;
  arg : payload;
}.

Abbreviation adapter_state := (gset (string * jsval)).

(** The sockets in a room, and [socket.rooms]. *)
Definition members (room : jsval) (a : adapter_state) : gset string :=
  set_map fst (filter (λ p, p.2 = room) a).

Definition socket_rooms (id : string) (a : adapter_state) : gset jsval :=
  set_map snd (filter (λ p, p.1 = id) a).

End SocketIO.

Import SocketIO.

(** ** server.js *)

(** The process state: the registry of rooms.js, socket.io's adapter, and
    the packets emitted so far, oldest first. *)
Record server := Server {
  rooms : registry;
  adapter : adapter_state;
  sent : list emission;
}.

Definition start : server := Server empty_registry ∅ [].

(** Calls into rooms.js act on the registry only. *)
Definition with_rooms {A} (m : M registry A) : M server A :=
  λ st, let '(r, rooms') := m (rooms st) in
        (r, Server rooms' (adapter st) (sent st)).

Definition read_rooms {A} (f : registry → A) : M server A :=
  λ st, (Ok (f (rooms st)), st).

(** [socket.join(room)] *)
Definition socket_join (id : string) (room : jsval) : M server unit :=
  λ st, (Ok tt, Server (rooms st) ({[ (id, room) ]} ∪ adapter st) (sent st)).

(** Broadcast to a room, leaving out the sockets in [except]. *)
Definition broadcast (room : jsval) (except : gset string)
    (ev : string) (a : payload) : M server unit :=
  λ st, (Ok tt,
         Server (rooms st) (adapter st)
           (sent st ++ [Emission room (members room (adapter st) ∖ except) ev a])).

(** [socket.to(room).emit(ev, a)] *)
Definition socket_to (id : string) (room : jsval) (ev : string) (a : payload)
    : M server unit :=
  broadcast room {[ id ]} ev a.

(** [io.in(room).emit(ev, a)] *)
Definition io_in (room : jsval) (ev : string) (a : payload) : M server unit :=
  broadcast room ∅ ev a.

(** [socket.rooms], spread into an array. *)
Definition rooms_of_socket (id : string) : M server (list jsval) :=
  λ st, (Ok (elements (socket_rooms id (adapter st))), st).

(** A property of an object sent by the client; [undefined] when missing. *)
Definition field (data : gmap string jsval) (name : string) : jsval :=
  default undefined (data !! name).

(** The 'disconnecting' handler of server.js broadcasts the roster after
    each departure; the handler of the other server files does not. *)
Inductive variant :=
  | server_js
  | unnamed_part.

(** [socket.on('join-room', (roomId, username) => ...)] *)
Definition on_join_room (socket : string) (roomId username : jsval)
    : M server unit :=
  run socket_join socket roomId then
  run with_rooms (addUserToRoom (to_key roomId) socket) then
  run socket_to socket roomId "user-joined" (PText (js_or username socket)) then
  let! users := read_rooms (getUsersInRoom (to_key roomId)) in
  io_in roomId "room-users" (PUsers users).

(** [socket.on('chat-message', ({ roomId, message, sender }) => ...)];
    [now] is the clock reading of [new Date()]. *)
Definition on_chat_message (socket : string) (data : gmap string jsval)
    (now : Z) : M server unit :=
  let roomId := field data "roomId" in
  let message := field data "message" in
  let sender := field data "sender" in
  io_in roomId "chat-message"
    (PChat (js_or sender "Anonymous") message (Date.toISOString now)).

(** [socket.on('offer', (data) => socket.to(data.roomId).emit('offer', data))]
    and its two siblings. *)
Definition on_offer (socket : string) (data : gmap string jsval) : M server unit :=
  socket_to socket (field data "roomId") "offer" (PData data).

Definition on_answer (socket : string) (data : gmap string jsval) : M server unit :=
  socket_to socket (field data "roomId") "answer" (PData data).

Definition on_ice_candidate (socket : string) (data : gmap string jsval)
    : M server unit :=
  socket_to socket (field data "roomId") "ice-candidate" (PData data).

Inductive signal :=
  | offer
  | answer
  | ice_candidate.

Definition signal_name (k : signal) : string :=
  match k with
  | offer => "offer"
  | answer => "answer"
  | ice_candidate => "ice-candidate"
  end.

Definition on_signal (k : signal) : string → gmap string jsval → M server unit :=
  match k with
  | offer => on_offer
  | answer => on_answer
  | ice_candidate => on_ice_candidate
  end.

(** The body of the [forEach] in the 'disconnecting' handler. *)
Definition leave_room (v : variant) (socket : string) (roomId : jsval)
    : M server unit :=
  run with_rooms (removeUserFromRoom (to_key roomId) socket) then
  run socket_to socket roomId "user-left" (PText socket) then
  match v with
  | server_js =>
      let! users := read_rooms (getUsersInRoom (to_key roomId)) in
      io_in roomId "room-users" (PUsers users)
  | unnamed_part => ret tt
  end.

(** [socket.on('disconnecting', () => ...)] *)
Definition on_disconnecting (v : variant) (socket : string) : M server unit :=
  let! joined := rooms_of_socket socket in
  let rooms := filter (λ r, r ≠ jstr socket) joined in
  forEach rooms (leave_room v socket).

(** What socket.io does around the handlers: a new socket is put in the
    room named by its own identifier, and a closing socket leaves every
    room once the 'disconnecting' handlers have run. *)
Definition connection (id : string) : M server unit :=
  socket_join id (jstr id).

Definition leaveAll (id : string) : M server unit :=
  λ st, (Ok tt,
         Server (rooms st) (filter (λ p, p.1 ≠ id) (adapter st)) (sent st)).

Definition connected (id : string) (st : server) : Prop :=
  (id, jstr id) ∈ adapter st.

#[global] Instance connected_dec id st : Decision (connected id st).
Proof. unfold connected. apply _. Defined.

(** Events of the dispatch loop. *)
Inductive event :=
  | Connection (id : string)
  | JoinRoom (id : string) (roomId username : jsval)
  | ChatMessage (id : string) (data : gmap string jsval) (now : Z)
  | Signal (k : signal) (id : string) (data : gmap string jsval)
  | Disconnect (id : string).

Definition dispatch (v : variant) (e : event) : M server unit :=
  match e with
  | Connection id => connection id
  | JoinRoom id roomId username => on_join_room id roomId username
  | ChatMessage id data now => on_chat_message id data now
  | Signal k id data => on_signal k id data
  | Disconnect id => run on_disconnecting v id then leaveAll id
  end.

(** A connection brings a fresh identifier; every other event comes from a
    connected socket. *)
Definition accepts (st : server) (e : event) : bool :=
  match e with
  | Connection id => bool_decide (¬ connected id st)
  | JoinRoom id _ _ | ChatMessage id _ _ | Signal _ id _ | Disconnect id =>
      bool_decide (connected id st)
  end.

(** States the server goes through; an uncaught exception ends the
    process, so only handlers that return lead to a next state. *)
Inductive reachable (v : variant) : server → Prop :=
  | reachable_start : reachable v start
  | reachable_step st e st' :
      reachable v st →
      accepts st e = true →
      dispatch v e st = (Ok tt, st') →
      reachable v st'.

(** Running a list of events from a state. *)
Fixpoint exec (v : variant) (es : list event) (st : server) : option server :=
  match es with
  | [] => Some st
  | e :: es' =>
      if accepts st e then
        match dispatch v e st with
        | (Ok _, st') => exec v es' st'
        | (Throw _, _) => None
        end
      else None
  end.

(** * The HTTP routes (server.js and the other server files)

    A route handler is a function of the request, of the environment
    variables and of what the one outgoing request of axios comes back with;
    it gives the call made on [res].  express, axios and [URLSearchParams]
    are dependencies and not part of the repository: a request body and the
    query are parsed by express, axios resolves with a status and the parsed
    body or rejects with an error that may carry a response, and
    [URLSearchParams] serialises as the URL standard says. *)

Module Http.

(** ** Parsed JSON, and [undefined]

    Numbers are integers here, of the size that JavaScript prints in
    decimal digits (below 10^21). *)
Inductive value :=
  | VUndefined
  | VNull
  | VBool (b : bool)
  | VNum (n : Z)
  | VStr (s : string)
  | VArr (items : list value)
  | VObj (fields : list (string * value)).

(** The own property [k] of a parsed object: the last binding counts. *)
Fixpoint own (fields : list (string * value)) (k : string) : option value :=
  match fields with
  | [] => None
  | (k', v) :: rest =>
      match own rest k with
      | Some w => Some w
      | None => if decide (k' = k) then Some v else None
      end
  end.

(** [v.k] for the property names the handlers read (item, type, name,
    artists, album, images, url, access_token, refresh_token, expires_in),
    none of which a string, an array or [Object.prototype] has. *)
Definition prop (v : value) (k : string) : result value :=
  match v with
  | VUndefined | VNull =>
      Throw (TypeError "Cannot read properties of undefined or null")
  | VObj fields => Ok (default VUndefined (own fields k))
  | _ => Ok VUndefined
  end.

(** [v?.k] *)
Definition prop_opt (v : value) (k : string) : value :=
  match v with
  | VObj fields => default VUndefined (own fields k)
  | _ => VUndefined
  end.

(** [xs.join(sep)] on strings. *)
Fixpoint join (sep : string) (xs : list string) : string :=
  match xs with
  | [] => ""
  | [x] => x
  | x :: rest => x +:+ sep +:+ join sep rest
  end.

(** All results, or the first throw. *)
Fixpoint sequence {A} (rs : list (result A)) : result (list A) :=
  match rs with
  | [] => Ok []
  | Throw e :: _ => Throw e
  | Ok a :: rest =>
      match sequence rest with
      | Ok l => Ok (a :: l)
      | Throw e => Throw e
      end
  end.

(** ToString.  An array prints its elements separated by commas, with
    nothing for [null] and [undefined]; an object prints as
    "[object Object]" unless an own property hides [toString]. *)
Fixpoint ToString (v : value) : result string :=
  match v with
  | VUndefined => Ok "undefined"
  | VNull => Ok "null"
  | VBool true => Ok "true"
  | VBool false => Ok "false"
  | VNum n => Ok (pretty n)
  | VStr s => Ok s
  | VArr items =>
      match sequence (map (λ x, match x with
                                | VUndefined | VNull => Ok ""
                                | _ => ToString x
                                end) items) with
      | Ok l => Ok (join "," l)
      | Throw e => Throw e
      end
  | VObj fields =>
      match own fields "toString" with
      | Some _ => Throw (TypeError "Cannot convert object to primitive value")
      | None => Ok "[object Object]"
      end
  end.

(** [xs.join(sep)] on values. *)
Definition join_values (sep : string) (xs : list value) : result string :=
  match sequence (map (λ x, match x with
                            | VUndefined | VNull => Ok ""
                            | _ => ToString x
                            end) xs) with
  | Ok l => Ok (join sep l)
  | Throw e => Throw e
  end.

(** [String(v)] and [`${v}`] for a value of [process.env], of the query,
    of a header or of a field of the request body, each a string or absent. *)
Definition js_string (v : jsval) : string := to_key v.

(** ** [URLSearchParams]: the application/x-www-form-urlencoded serialiser *)

Definition unreserved (c : ascii) : bool :=
  let n := nat_of_ascii c in
  ((48 <=? n) && (n <=? 57) || (65 <=? n) && (n <=? 90)
   || (97 <=? n) && (n <=? 122)
   || (n =? 42) || (n =? 45) || (n =? 46) || (n =? 95))%nat.

Definition hex (n : nat) : ascii :=
  if (n <? 10)%nat then ascii_of_nat (48 + n) else ascii_of_nat (55 + n).

Definition percent (c : ascii) : string :=
  let n := nat_of_ascii c in
  String "%" (String (hex (n / 16)) (String (hex (n mod 16)) "")).

Definition urlencode_byte (c : ascii) : string :=
  if decide (c = " "%char) then "+"
  else if unreserved c then String c ""
  else percent c.

Fixpoint urlencode (s : string) : string :=
  match s with
  | "" => ""
  | String c rest => urlencode_byte c +:+ urlencode rest
  end.

(** [new URLSearchParams({...}).toString()], the values already strings. *)
Definition URLSearchParams (pairs : list (string * string)) : string :=
  join "&" (map (λ p, urlencode p.1 +:+ "=" +:+ urlencode p.2) pairs).

(** ** Environment, replies, axios *)

Record environment := Environment {
  SPOTIFY_CLIENT_ID : jsval;
  SPOTIFY_CLIENT_SECRET : jsval;
  SPOTIFY_REDIRECT_URI : jsval;
  BACKEND_URL : jsval;
  FRONTEND_URL : jsval;
}.

(** The call a handler makes on [res]. *)
Inductive reply :=
  | Redirect (url : string)
  | Send (status : Z) (body : string)
  | SendEmpty (status : Z)
  | Json (data : value).

(** How the request of axios ends: resolved with a status and the parsed
    body, or rejected, with the status of the response when there is one. *)
Inductive axios_outcome :=
  | Resolved (status : Z) (data : value)
  | Rejected (response_status : option Z).

(** [error.response?.status || 500] *)
Definition status_or_500 (response_status : option Z) : Z :=
  match response_status with
  | Some s => if decide (s = 0%Z) then 500%Z else s
  | None => 500%Z
  end.

(** ** server.js *)

(** [app.get('/login', ...)] *)
Definition login_scopes : list string :=
  ["user-read-private"; "user-read-email"; "user-modify-playback-state";
   "user-read-playback-state"; "streaming"].

Definition login (env : environment) : reply :=
  Redirect
    ("https://accounts.spotify.com/authorize?" +:+
     URLSearchParams
       [("response_type", "code");
        ("client_id", js_string (SPOTIFY_CLIENT_ID env));
        ("scope", join " " login_scopes);
        ("redirect_uri", js_string (SPOTIFY_REDIRECT_URI env))]).

(** [req.query.code || null], as [URLSearchParams] then prints it. *)
Definition code_or_null (code : jsval) : string :=
  if truthy code then js_string code else "null".

(** The body of the token request of [app.get('/callback', ...)]. *)
Definition callback_body (env : environment) (code : jsval) : string :=
  URLSearchParams
    [("grant_type", "authorization_code");
     ("code", code_or_null code);
     ("redirect_uri", js_string (SPOTIFY_REDIRECT_URI env));
     ("client_id", js_string (SPOTIFY_CLIENT_ID env));
     ("client_secret", js_string (SPOTIFY_CLIENT_SECRET env))].

(** The template literal that the tokens are put in. *)
Definition callback_redirect (data : value) : result string :=
  match prop data "access_token" with
  | Throw e => Throw e
  | Ok access_token =>
  match prop data "refresh_token" with
  | Throw e => Throw e
  | Ok refresh_token =>
  match prop data "expires_in" with
  | Throw e => Throw e
  | Ok expires_in =>
  match ToString access_token with
  | Throw e => Throw e
  | Ok a =>
  match ToString refresh_token with
  | Throw e => Throw e
  | Ok r =>
  match ToString expires_in with
  | Throw e => Throw e
  | Ok x =>
      Ok ("https://jamsync-frontend.vercel.app/callback?access_token=" +:+ a
          +:+ "&refresh_token=" +:+ r +:+ "&expires_in=" +:+ x)
  end end end end end end.

(** [app.get('/callback', ...)]: [post url body] is what the request to
    the token endpoint comes back with. *)
Definition callback (env : environment) (code : jsval)
    (post : string → string → axios_outcome) : reply :=
  match post "https://accounts.spotify.com/api/token" (callback_body env code) with
  | Resolved _ data =>
      match callback_redirect data with
      | Ok url => Redirect url
      | Throw _ => Send 500 "Failed to retrieve access token"
      end
  | Rejected _ => Send 500 "Failed to retrieve access token"
  end.

(** The body of the token request of the '/refresh_token' route, the
    same in both server files. *)
Definition refresh_body (env : environment) (token : jsval) : string :=
  URLSearchParams
    [("grant_type", "refresh_token");
     ("refresh_token", js_string token);
     ("client_id", js_string (SPOTIFY_CLIENT_ID env));
     ("client_secret", js_string (SPOTIFY_CLIENT_SECRET env))].

(** [app.post('/refresh_token', ...)], and [app.get('/refresh_token', ...)]
    of the other server file, which differs in where the token is read. *)
Definition refresh_token (env : environment) (token : jsval)
    (post : string → string → axios_outcome) : reply :=
  match post "https://accounts.spotify.com/api/token"
          (refresh_body env token) with
  | Resolved _ data => Json data
  | Rejected _ => Send 500 "Failed to refresh token"
  end.

(** ** The other server file (unnamed part 0) *)

Definition login_scopes' : list string :=
  ["user-read-private"; "user-read-email"; "user-modify-playback-state";
   "user-read-playback-state"; "user-read-currently-playing"].

(** [app.get('/login', ...)] *)
Definition login' (env : environment) : reply :=
  let redirectUri := js_string (BACKEND_URL env) +:+ "/callback" in
  Redirect
    ("https://accounts.spotify.com/authorize?" +:+
     URLSearchParams
       [("response_type", "code");
        ("client_id", js_string (SPOTIFY_CLIENT_ID env));
        ("scope", join " " login_scopes');
        ("redirect_uri", redirectUri)]).

Definition callback_body' (env : environment) (code : jsval) : string :=
  URLSearchParams
    [("grant_type", "authorization_code");
     ("code", code_or_null code);
     ("redirect_uri", js_string (BACKEND_URL env) +:+ "/callback");
     ("client_id", js_string (SPOTIFY_CLIENT_ID env));
     ("client_secret", js_string (SPOTIFY_CLIENT_SECRET env))].

(** The query that [URLSearchParams] makes of the three tokens. *)
Definition callback_query' (data : value) : result string :=
  match prop data "access_token" with
  | Throw e => Throw e
  | Ok access_token =>
  match prop data "refresh_token" with
  | Throw e => Throw e
  | Ok refresh_token =>
  match prop data "expires_in" with
  | Throw e => Throw e
  | Ok expires_in =>
  match ToString access_token with
  | Throw e => Throw e
  | Ok a =>
  match ToString refresh_token with
  | Throw e => Throw e
  | Ok r =>
  match ToString expires_in with
  | Throw e => Throw e
  | Ok x =>
      Ok (URLSearchParams
            [("access_token", a); ("refresh_token", r); ("expires_in", x)])
  end end end end end end.

(** [app.get('/callback', ...)] *)
Definition callback' (env : environment) (code : jsval)
    (post : string → string → axios_outcome) : reply :=
  match post "https://accounts.spotify.com/api/token"
          (callback_body' env code) with
  | Resolved _ data =>
      match callback_query' data with
      | Ok query =>
          Redirect (js_string (FRONTEND_URL env) +:+ "/callback?" +:+ query)
      | Throw _ => Send 500 "Failed to get access token from Spotify."
      end
  | Rejected _ => Send 500 "Failed to get access token from Spotify."
  end.

(** [s.split(' ')] *)
Fixpoint split_space (s : string) : list string :=
  match s with
  | "" => [""]
  | String c rest =>
      if decide (c = " "%char) then "" :: split_space rest
      else match split_space rest with
           | piece :: pieces => String c piece :: pieces
           | [] => [String c ""]
           end
  end.



(** A now-playing packet: the room given to [io.in], the sockets it is
    written to, and its argument. *)
Record now_playing := NowPlaying {
  np_room : jsval;
  np_recipients : gset string;
  np_payload : value;
}.

(** [trackData.artists.map(a => a.name).join(', ')] *)
Definition artist_names (trackData : value) : result string :=
  match prop trackData "artists" with
  | Throw e => Throw e
  | Ok (VArr items) =>
      match sequence (map (λ a, prop a "name") items) with
      | Ok names => join_values ", " names
      | Throw e => Throw e
      end
  | Ok VUndefined | Ok VNull =>
      Throw (TypeError "Cannot read properties of undefined or null")
  | Ok _ => Throw (TypeError "trackData.artists.map is not a function")
  end.

(** [v[0]]; of a string its first character, from which only [url] is
    read, which no string has. *)
Definition index0 (v : value) : result value :=
  match v with
  | VUndefined | VNull =>
      Throw (TypeError "Cannot read properties of undefined or null")
  | VArr items => Ok (default VUndefined (head items))
  | VObj fields => Ok (default VUndefined (own fields "0"))
  | VStr (String c _) => Ok (VStr (String c ""))
  | _ => Ok VUndefined
  end.

(** [trackData.album.images[0].url] *)
Definition first_image_url (trackData : value) : result value :=
  match prop trackData "album" with
  | Throw e => Throw e
  | Ok album =>
  match prop album "images" with
  | Throw e => Throw e
  | Ok images =>
  match index0 images with
  | Throw e => Throw e
  | Ok image => prop image "url"
  end end end.

(** The object literal [track]. *)
Definition build_track (trackData : value) : result value :=
  match prop trackData "name" with
  | Throw e => Throw e
  | Ok title =>
  match artist_names trackData with
  | Throw e => Throw e
  | Ok artist =>
  match first_image_url trackData with
  | Throw e => Throw e
  | Ok albumArt =>
      Ok (VObj [("title", title); ("artist", VStr artist);
                ("albumArt", albumArt)])
  end end end.

(** [trackData?.type === 'track'] *)
Definition is_track (trackData : value) : bool :=
  match prop_opt trackData "type" with
  | VStr s => bool_decide (s = "track")
  | _ => false
  end.

(** [app.post('/update-now-playing', ...)]: the call on [res] and the
    packets emitted, given socket.io's rooms. *)
Definition update_now_playing (a : adapter_state) (accessToken roomId : jsval)
    (get : string → string → axios_outcome) : reply * list now_playing :=
  if negb (truthy accessToken) || negb (truthy roomId)
  then (Send 400 "Missing access token or room ID.", [])
  else
    let emit payload := NowPlaying roomId (members roomId a) payload in
    match get "https://api.spotify.com/v1/me/player/currently-playing"
            ("Bearer " +:+ js_string accessToken) with
    | Rejected response_status =>
        (Send (status_or_500 response_status) "Failed to fetch track.", [])
    | Resolved status data =>
        if decide (status = 204%Z) then (SendEmpty 204, [emit VNull])
        else
          match prop data "item" with
          | Throw _ => (Send 500 "Failed to fetch track.", [])
          | Ok trackData =>
              if is_track trackData then
                match build_track trackData with
                | Ok track => (Json track, [emit track])
                | Throw _ => (Send 500 "Failed to fetch track.", [])
                end
              else (Send 404 "No track currently playing.", [emit VNull])
          end
    end.

End Http.

(** * Notions the claims are stated with *)

(** The members the registry holds for a room of its own. *)
Definition members_of (reg : registry) (R : string) : gset string :=
  default ∅ (reg !! R).

(** A room name the registry can store: it holds the name already, or
    [Object.prototype] has no property of that name. *)
Definition storable (reg : registry) (R : string) : Prop :=
  is_Some (reg !! R) ∨ Object_prototype R = None.

(** join(R,P) followed by leave(R,P). *)
Definition join_then_leave (R P : string) : M registry unit :=
  run addUserToRoom R P then removeUserFromRoom R P.

(** How often a value occurs in an array. *)
Definition occurrences (x : jsval) (l : list jsval) : nat :=
  length (filter (λ y, y = x) l).

(** The calls rooms.js exports, and the registry each leaves behind,
    whether it returned or threw. *)
Inductive call :=
  | AddUser (R P : string)
  | RemoveUser (R P : string)
  | GetUsers (R : string).

(** The registry a call leaves behind. *)
Definition after (c : call) (reg : registry) : registry :=
  match c with
  | AddUser R P => (addUserToRoom R P reg).2
  | RemoveUser R P => (removeUserFromRoom R P reg).2
  | GetUsers R => let _ := getUsersInRoom R reg in reg
  end.

(** The registries that calls can build from the empty one. *)
Inductive registry_reachable : registry → Prop :=
  | registry_new : registry_reachable empty_registry
  | registry_call c reg :
      registry_reachable reg → registry_reachable (after c reg).

(** No key holds an empty set. *)
Definition nonempty_rooms (reg : registry) : Prop :=
  ∀ R s, reg !! R = Some s → s ≠ ∅.

(** The packets a handler emits when run in a state. *)
Definition emitted (m : M server unit) (st : server) : list emission :=
  drop (length (sent st)) (sent (m st).2).

(** The state after a list of events, from the start. *)
Definition state_after (v : variant) (es : list event) : server :=
  default start (exec v es start).

(** The user-joined packet. *)
Definition joined_packet (S : string) (R name : jsval) (a : adapter_state)
    : emission :=
  Emission R (members R a ∖ {[S]}) "user-joined" (PText (js_or name S)).

(** The room-users packet. *)
Definition roster_packet (R : jsval) (a : adapter_state) (reg : registry)
    : emission :=
  Emission R (members R a ∖ ∅) "room-users"
    (PUsers (getUsersInRoom (to_key R) reg)).

(** The packets of one round of the 'disconnecting' loop. *)
Definition left_packet (S : string) (a : adapter_state) (R : jsval) : emission :=
  Emission R (members R a ∖ {[S]}) "user-left" (PText S).

Definition roster_after_leave (v : variant) (R : jsval) (a : adapter_state)
    (reg : registry) : list emission :=
  match v with
  | server_js => [roster_packet R a reg]
  | unnamed_part => []
  end.

(** No key of the registry, and no room a socket joined by 'join-room',
    bears a name inherited from [Object.prototype]. *)
Definition plain_names (st : server) : Prop :=
  (∀ k, k ∈ dom (rooms st) → Object_prototype k = None) ∧
  (∀ S R, (S, R) ∈ adapter st → R ≠ jstr S →
     Object_prototype (to_key R) = None).

(** Whoever socket.io has in a room, other than a socket in the room named
    by its own identifier, is listed in the registry under that room. *)
Definition listed (st : server) : Prop :=
  ∀ T R, (T, R) ∈ adapter st → R ≠ jstr T →
    T ∈ members_of (rooms st) (to_key R).

(** A registry with somebody else in the room. *)
Definition busy_registry : registry := {[ "jam1" := {[ "q" ]} ]}.

(** A chat payload whose sender is the empty string. *)
Definition unnamed_chat : gmap string jsval :=
  {[ "roomId" := jstr "jam1"; "message" := jstr "hi"; "sender" := jstr "" ]}.

(** A chat payload and a signaling payload for the room "jam1". *)
Definition alice_chat : gmap string jsval :=
  {[ "roomId" := jstr "jam1"; "message" := jstr "hi"; "sender" := jstr "alice" ]}.

Definition sdp_offer : gmap string jsval :=
  {[ "roomId" := jstr "jam1"; "sdp" := jstr "v=0" ]}.

(** One connected socket. *)
Definition one_socket : server := state_after server_js [Connection "s1"].

(** Three sockets in the room "jam1". *)
Definition jam_session : server :=
  state_after server_js
    [Connection "s1"; Connection "s2"; Connection "s3";
     JoinRoom "s1" (jstr "jam1") (jstr "ann");
     JoinRoom "s2" (jstr "jam1") undefined;
     JoinRoom "s3" (jstr "jam1") undefined].



(** * Further notions: how a call changes one slot of the registry *)

(** The room a call names. *)
Definition room_of (c : call) : string :=
  match c with
  | AddUser R _ | RemoveUser R _ | GetUsers R => R
  end.

(** What a call makes of the own property it finds under its room name. *)
Definition slot_after (c : call) (o : option (gset string))
    : option (gset string) :=
  match c with
  | AddUser R P =>
      match o, Object_prototype R with
      | None, Some _ => None
      | _, _ => Some (default ∅ o ∪ {[P]})
      end
  | RemoveUser R P =>
      match o with
      | Some s => if decide (s ∖ {[P]} = ∅) then None else Some (s ∖ {[P]})
      | None => None
      end
  | GetUsers _ => o
  end.

(** Whether a call returned. *)
Definition returned {S A} (r : result A * S) : Prop :=
  match r.1 with
  | Ok _ => True
  | Throw _ => False
  end.

(** Whoever the registry lists under a room is in that room for socket.io,
    or the room bears the socket's own identifier. *)
Definition backed (st : server) : Prop :=
  ∀ T k, T ∈ members_of (rooms st) k →
    k = T ∨ ∃ R, to_key R = k ∧ (T, R) ∈ adapter st.

(** Only connected sockets are in rooms. *)
Definition only_connected (st : server) : Prop :=
  ∀ T R, (T, R) ∈ adapter st → connected T st.


(** ** Notions for the properties of the routes *)

(** How often a character occurs in a string, and whether all its
    characters pass a test. *)
Fixpoint count_char (c : ascii) (s : string) : nat :=
  match s with
  | "" => 0
  | String c' rest => (if decide (c' = c) then 1 else 0) + count_char c rest
  end.

Fixpoint all_chars (P : ascii → bool) (s : string) : bool :=
  match s with
  | "" => true
  | String c rest => P c && all_chars P rest
  end.

(** The characters an encoded name or value is made of, and those of a
    whole query. *)
Definition value_char (c : ascii) : bool :=
  Http.unreserved c || bool_decide (c = "+"%char) || bool_decide (c = "%"%char).

Definition query_char (c : ascii) : bool :=
  value_char c || bool_decide (c = "="%char) || bool_decide (c = "&"%char).


(** A track as Spotify describes it: a name, artists with their names,
    and an album with its images. *)
Definition spotify_track (title : Http.value) (artists : list string)
    (images : list Http.value) : Http.value :=
  Http.VObj
    [("type", Http.VStr "track"); ("name", title);
     ("artists",
      Http.VArr (map (λ n, Http.VObj [("name", Http.VStr n)]) artists));
     ("album", Http.VObj [("images", Http.VArr images)])].

(** * Properties of the registry *)

#[global] Instance jstr_inj : Inj (=) (=) jstr.
Proof. by intros ?? [= ->]. Qed.

Section registry_facts.

Implicit Types (R P Q : string) (reg : registry).

Lemma get_storable reg R :
  storable reg R →
  get reg R = match reg !! R with Some s => Members s | None => Absent end.
Proof.
  unfold get. intros [[s ->] | Hp]; [done |].
  destruct (reg !! R); [done |]. by rewrite Hp.
Qed.

Lemma get_inherited reg R i :
  reg !! R = None → Object_prototype R = Some i → get reg R = Inherited i.
Proof. unfold get. by intros -> ->. Qed.

Lemma get_same reg reg' R : reg' !! R = reg !! R → get reg' R = get reg R.
Proof. unfold get. by intros ->. Qed.

Lemma addUserToRoom_storable reg R P :
  storable reg R →
  addUserToRoom R P reg = (Ok tt, <[R := members_of reg R ∪ {[P]}]> reg).
Proof.
  intros Hs. unfold addUserToRoom, members_of.
  rewrite (get_storable _ _ Hs).
  destruct (reg !! R) as [s|] eqn:E; simpl.
  - rewrite (get_storable _ _ Hs), E. done.
  - unfold get. rewrite lookup_insert_eq.
    by rewrite insert_insert_eq.
Qed.

Lemma addUserToRoom_inherited reg R P i :
  reg !! R = None → Object_prototype R = Some i →
  addUserToRoom R P reg =
    (Throw (TypeError "rooms[roomId].add is not a function"), reg).
Proof.
  intros E Hp. unfold addUserToRoom.
  rewrite (get_inherited _ _ _ E Hp). simpl.
  by rewrite (get_inherited _ _ _ E Hp).
Qed.

Lemma removeUserFromRoom_storable reg R P :
  storable reg R →
  removeUserFromRoom R P reg =
    (Ok tt,
     if decide (members_of reg R ∖ {[P]} = ∅)
     then delete R reg
     else <[R := members_of reg R ∖ {[P]}]> reg).
Proof.
  intros Hs. unfold removeUserFromRoom, members_of.
  rewrite (get_storable _ _ Hs).
  destruct (reg !! R) as [s|] eqn:E; simpl.
  - destruct (decide (size (s ∖ {[P]}) = 0)) as [Hz|Hz].
    + apply size_empty_inv in Hz. apply leibniz_equiv in Hz.
      by rewrite decide_True.
    + rewrite decide_False; [done |]. intros Heq. apply Hz.
      rewrite Heq. apply size_empty.
  - rewrite decide_True by (apply set_eq; set_solver).
    by rewrite delete_id.
Qed.

Lemma removeUserFromRoom_inherited reg R P i :
  reg !! R = None → Object_prototype R = Some i →
  removeUserFromRoom R P reg =
    (Throw (TypeError "rooms[roomId].delete is not a function"), reg).
Proof.
  intros E Hp. unfold removeUserFromRoom.
  by rewrite (get_inherited _ _ _ E Hp).
Qed.

Lemma getUsersInRoom_storable reg R :
  storable reg R →
  getUsersInRoom R reg = jstr <$> elements (members_of reg R).
Proof.
  intros Hs. unfold getUsersInRoom, members_of.
  rewrite (get_storable _ _ Hs).
  destruct (reg !! R) as [s|]; simpl; [done |].
  by rewrite elements_empty.
Qed.

Lemma elem_of_getUsersInRoom reg R Q :
  storable reg R →
  jstr Q ∈ getUsersInRoom R reg ↔ Q ∈ members_of reg R.
Proof.
  intros Hs. rewrite (getUsersInRoom_storable _ _ Hs).
  rewrite list_elem_of_fmap. split.
  - intros (x & [= ->] & Hx). by apply elem_of_elements.
  - intros Hx. exists Q. split; [done |]. by apply elem_of_elements.
Qed.

Lemma getUsersInRoom_same reg reg' R :
  reg' !! R = reg !! R → getUsersInRoom R reg' = getUsersInRoom R reg.
Proof. intros E. unfold getUsersInRoom. by rewrite (get_same _ _ _ E). Qed.

(** Every call leaves the registry as it was, or as the storable case
    describes. *)
Lemma addUserToRoom_cases reg R P :
  (storable reg R ∧
   addUserToRoom R P reg = (Ok tt, <[R := members_of reg R ∪ {[P]}]> reg))
  ∨ (¬ storable reg R ∧ ∃ e, addUserToRoom R P reg = (Throw e, reg)).
Proof.
  destruct (reg !! R) as [s|] eqn:E.
  - left. assert (storable reg R) by (left; by rewrite E).
    split; [done |]. by apply addUserToRoom_storable.
  - destruct (Object_prototype R) as [i|] eqn:Hp.
    + right. split.
      * intros [[? ?] | ?]; congruence.
      * eexists. by eapply addUserToRoom_inherited.
    + left. assert (storable reg R) by (by right).
      split; [done |]. by apply addUserToRoom_storable.
Qed.

Lemma removeUserFromRoom_cases reg R P :
  (storable reg R ∧
   removeUserFromRoom R P reg =
     (Ok tt,
      if decide (members_of reg R ∖ {[P]} = ∅)
      then delete R reg
      else <[R := members_of reg R ∖ {[P]}]> reg))
  ∨ (¬ storable reg R ∧ ∃ e, removeUserFromRoom R P reg = (Throw e, reg)).
Proof.
  destruct (reg !! R) as [s|] eqn:E.
  - left. assert (storable reg R) by (left; by rewrite E).
    split; [done |]. by apply removeUserFromRoom_storable.
  - destruct (Object_prototype R) as [i|] eqn:Hp.
    + right. split.
      * intros [[? ?] | ?]; congruence.
      * eexists. by eapply removeUserFromRoom_inherited.
    + left. assert (storable reg R) by (by right).
      split; [done |]. by apply removeUserFromRoom_storable.
Qed.

End registry_facts.

(** * Claims about the registry *)

Section registry_claims.

Implicit Types (R P Q : string) (reg : registry).

Lemma occurrences_absent (x : jsval) (l : list jsval) :
  x ∉ l → occurrences x l = 0.
Proof.
  unfold occurrences. induction l as [|y l IH]; intros Hx; [done |].
  apply not_elem_of_cons in Hx as [Hne Hx].
  rewrite filter_cons_False by (intros ->; done). by apply IH.
Qed.

Lemma occurrences_NoDup (x : jsval) (l : list jsval) :
  NoDup l → x ∈ l → occurrences x l = 1.
Proof.
  induction 1 as [|y l Hy Hl IH]; intros Hx.
  - by apply elem_of_nil in Hx.
  - unfold occurrences. apply elem_of_cons in Hx as [-> | Hx].
    + rewrite filter_cons_True by done. simpl. f_equal.
      by apply occurrences_absent.
    + rewrite filter_cons_False by (intros ->; done). by apply IH.
Qed.

Lemma members_of_insert reg R s : members_of (<[R := s]> reg) R = s.
Proof. unfold members_of. by rewrite lookup_insert_eq. Qed.

Lemma storable_insert reg R s : storable (<[R := s]> reg) R.
Proof. left. by rewrite lookup_insert_eq. Qed.

Lemma join_then_leave_storable reg R P :
  storable reg R →
  join_then_leave R P reg =
    (Ok tt,
     if decide (members_of reg R ∖ {[P]} = ∅)
     then delete R reg
     else <[R := members_of reg R ∖ {[P]}]> reg).
Proof.
  intros Hs. unfold join_then_leave, bind.
  rewrite (addUserToRoom_storable _ _ _ Hs).
  rewrite removeUserFromRoom_storable by apply storable_insert.
  rewrite members_of_insert.
  replace ((members_of reg R ∪ {[P]}) ∖ {[P]})
    with (members_of reg R ∖ {[P]}) by set_solver.
  case_decide.
  - by rewrite delete_insert_eq.
  - by rewrite insert_insert_eq.
Qed.

(** C1, as amended: for a room name R that is not a property of
    Object.prototype, and from any registry state, join(R,P) followed by
    leave(R,P) both return; afterwards P is not listed in R, every other
    participant is listed exactly when it was before, and when R had no
    participant other than P the list is empty and R is not a key. *)
Theorem C1_join_then_leave R P reg :
  Object_prototype R = None →
  ∃ reg',
    join_then_leave R P reg = (Ok tt, reg') ∧
    (jstr P ∉ getUsersInRoom R reg') ∧
    (∀ Q, Q ≠ P →
       jstr Q ∈ getUsersInRoom R reg' ↔ jstr Q ∈ getUsersInRoom R reg) ∧
    ((∀ Q, jstr Q ∈ getUsersInRoom R reg → Q = P) →
       getUsersInRoom R reg' = [] ∧ R ∉ keys reg').
Proof.
  intros Hp. assert (Hs : storable reg R) by (by right).
  eexists. split; [by apply join_then_leave_storable |].
  set (m := members_of reg R).
  set (reg' := if decide (m ∖ {[P]} = ∅) then delete R reg
               else <[R := m ∖ {[P]}]> reg).
  assert (Hs' : storable reg' R) by (by right).
  assert (Hm : members_of reg' R = m ∖ {[P]}).
  { unfold reg'. case_decide as Hd.
    - unfold members_of at 1. by rewrite lookup_delete_eq, Hd.
    - apply members_of_insert. }
  split; [| split].
  - rewrite (elem_of_getUsersInRoom _ _ _ Hs'), Hm. set_solver.
  - intros Q HQ.
    rewrite (elem_of_getUsersInRoom _ _ _ Hs'), Hm.
    rewrite (elem_of_getUsersInRoom _ _ _ Hs). fold m. set_solver.
  - intros Honly.
    assert (Hd : m ∖ {[P]} = ∅).
    { apply set_eq. intros Q. split; [| set_solver].
      intros [HQ HQP]%elem_of_difference. exfalso. apply HQP.
      apply elem_of_singleton, Honly.
      by apply (elem_of_getUsersInRoom _ _ _ Hs). }
    split.
    + rewrite (getUsersInRoom_storable _ _ Hs'), Hm, Hd.
      by rewrite elements_empty.
    + unfold reg', keys. rewrite decide_True by done.
      rewrite dom_delete_L. set_solver.
Qed.

Lemma C1_join_then_leave_witness :
  ∃ reg',
    join_then_leave "jam1" "p" busy_registry = (Ok tt, reg') ∧
    (jstr "p" ∉ getUsersInRoom "jam1" reg') ∧
    (∀ Q, Q ≠ "p" →
       jstr Q ∈ getUsersInRoom "jam1" reg' ↔
       jstr Q ∈ getUsersInRoom "jam1" busy_registry) ∧
    ((∀ Q, jstr Q ∈ getUsersInRoom "jam1" busy_registry → Q = "p") →
       getUsersInRoom "jam1" reg' = [] ∧ "jam1" ∉ keys reg').
Proof. apply (C1_join_then_leave "jam1" "p" busy_registry). reflexivity. Defined.

(** C1 as stated fails when the room has another participant: after "p"
    joins and leaves the room "jam1" that "q" is in, "q" is still listed
    and "jam1" is still a key. *)
Lemma C1_counterexample :
  ¬ (getUsersInRoom "jam1" (join_then_leave "jam1" "p" busy_registry).2 = []
     ∧ "jam1" ∉ keys (join_then_leave "jam1" "p" busy_registry).2).
Proof. intros [H _]. vm_compute in H. discriminate H. Qed.

Lemma after_AddUser_lookup reg R P R' :
  R ≠ R' → after (AddUser R P) reg !! R' = reg !! R'.
Proof.
  intros Hne. simpl.
  destruct (addUserToRoom_cases reg R P) as [[_ ->] | [_ [e ->]]]; simpl.
  - by rewrite lookup_insert_ne.
  - done.
Qed.

Lemma after_RemoveUser_lookup reg R P R' :
  R ≠ R' → after (RemoveUser R P) reg !! R' = reg !! R'.
Proof.
  intros Hne. simpl.
  destruct (removeUserFromRoom_cases reg R P) as [[_ ->] | [_ [e ->]]]; simpl.
  - case_decide; [by rewrite lookup_delete_ne | by rewrite lookup_insert_ne].
  - done.
Qed.

Lemma nonempty_rooms_after c reg :
  nonempty_rooms reg → nonempty_rooms (after c reg).
Proof.
  intros Hinv. destruct c as [R P | R P | R]; simpl; [| | done].
  - destruct (addUserToRoom_cases reg R P) as [[_ ->] | [_ [e ->]]];
      simpl; [| done].
    intros R' s. destruct (decide (R = R')) as [<- | Hne].
    + rewrite lookup_insert_eq. intros [= <-]. set_solver.
    + rewrite lookup_insert_ne by done. apply Hinv.
  - destruct (removeUserFromRoom_cases reg R P) as [[_ ->] | [_ [e ->]]];
      simpl; [| done].
    intros R' s. case_decide as Hd.
    + destruct (decide (R = R')) as [<- | Hne].
      * by rewrite lookup_delete_eq.
      * rewrite lookup_delete_ne by done. apply Hinv.
    + destruct (decide (R = R')) as [<- | Hne].
      * rewrite lookup_insert_eq. by intros [= <-].
      * rewrite lookup_insert_ne by done. apply Hinv.
Qed.

(** C2: every registry state reached from the empty registry by calls of
    addUserToRoom, removeUserFromRoom and getUsersInRoom maps each of its
    keys to a non-empty set, and each of the three calls preserves that. *)
Theorem C2_no_empty_room :
  (∀ reg, registry_reachable reg → nonempty_rooms reg) ∧
  (∀ c reg, nonempty_rooms reg → nonempty_rooms (after c reg)).
Proof.
  split; [| apply nonempty_rooms_after].
  induction 1 as [| c reg _ IH].
  - intros R s. unfold empty_registry. by rewrite lookup_empty.
  - by apply nonempty_rooms_after.
Qed.

Lemma C2_no_empty_room_witness :
  nonempty_rooms (after (RemoveUser "jam1" "q") busy_registry).
Proof.
  apply (proj2 C2_no_empty_room (RemoveUser "jam1" "q") busy_registry).
  intros R s. unfold busy_registry.
  destruct (decide ("jam1" = R)) as [<- | Hne].
  - rewrite lookup_singleton_eq. intros [= <-]. set_solver.
  - by rewrite lookup_singleton_ne.
Defined.

(** Joining twice is the same as joining once, for every room name: the
    outcome and the registry of the second call are those of the first. *)
Lemma addUserToRoom_idempotent reg R P :
  addUserToRoom R P (addUserToRoom R P reg).2 = addUserToRoom R P reg.
Proof.
  destruct (addUserToRoom_cases reg R P) as [[_ H] | [_ [e H]]];
    rewrite H; simpl; [| exact H].
  rewrite addUserToRoom_storable by apply storable_insert.
  rewrite members_of_insert, insert_insert_eq.
  do 2 f_equal. set_solver.
Qed.

(** For a storable room name the participant is listed exactly once after
    joining. *)
Lemma addUserToRoom_listed_once reg R P :
  storable reg R →
  ∃ reg', addUserToRoom R P reg = (Ok tt, reg') ∧
          occurrences (jstr P) (getUsersInRoom R reg') = 1.
Proof.
  intros Hs. eexists. split; [by apply addUserToRoom_storable |].
  rewrite getUsersInRoom_storable by apply storable_insert.
  rewrite members_of_insert. apply occurrences_NoDup.
  - apply (NoDup_fmap_2 _), NoDup_elements.
  - apply list_elem_of_fmap. exists P. split; [done |].
    apply elem_of_elements. set_solver.
Qed.

(** C3 at the room name "constructor": the lookup finds the function
    inherited from Object.prototype, no set is created, the call throws,
    and the participant is not listed afterwards. *)
Theorem C3_join_inherited_name :
  addUserToRoom "constructor" "s1" empty_registry
    = (Throw (TypeError "rooms[roomId].add is not a function"), empty_registry)
  ∧ getUsersInRoom "constructor" empty_registry = [undefined]
  ∧ occurrences (jstr "s1") (getUsersInRoom "constructor" empty_registry) = 0.
Proof. by vm_compute. Qed.

(** C4 at room names inherited from Object.prototype: leave and join throw
    a TypeError, and the list for the unknown room "constructor" is not
    empty. *)
Theorem C4_inherited_names_throw :
  removeUserFromRoom "constructor" "s1" empty_registry
    = (Throw (TypeError "rooms[roomId].delete is not a function"),
       empty_registry)
  ∧ removeUserFromRoom "__proto__" "s1" empty_registry
    = (Throw (TypeError "rooms[roomId].delete is not a function"),
       empty_registry)
  ∧ addUserToRoom "toString" "s1" empty_registry
    = (Throw (TypeError "rooms[roomId].add is not a function"), empty_registry)
  ∧ ("constructor" ∉ keys empty_registry)
  ∧ getUsersInRoom "constructor" empty_registry = [undefined].
Proof.
  repeat split; by vm_compute.
Qed.

(** Away from the inherited names the three calls never throw, leave is
    a no-op for an unknown room or a participant that is not in it, and
    the list of an unknown room is empty. *)
Lemma registry_total_storable reg R P :
  storable reg R →
  (∃ reg', addUserToRoom R P reg = (Ok tt, reg')) ∧
  (∃ reg', removeUserFromRoom R P reg = (Ok tt, reg')) ∧
  (reg !! R = None → removeUserFromRoom R P reg = (Ok tt, reg)) ∧
  (jstr P ∉ getUsersInRoom R reg → nonempty_rooms reg →
     removeUserFromRoom R P reg = (Ok tt, reg)) ∧
  (reg !! R = None → getUsersInRoom R reg = []).
Proof.
  intros Hs. repeat split.
  - eexists. by apply addUserToRoom_storable.
  - eexists. by apply removeUserFromRoom_storable.
  - intros E. rewrite (removeUserFromRoom_storable _ _ _ Hs).
    unfold members_of. rewrite E. simpl.
    rewrite decide_True by (apply set_eq; set_solver).
    by rewrite delete_id.
  - intros HP Hinv. rewrite (removeUserFromRoom_storable _ _ _ Hs).
    rewrite (elem_of_getUsersInRoom _ _ _ Hs) in HP.
    assert (Hm : members_of reg R ∖ {[P]} = members_of reg R)
      by (apply set_eq; set_solver).
    rewrite Hm. unfold members_of in *.
    destruct (reg !! R) as [s|] eqn:E; simpl in *.
    + rewrite decide_False by (by eapply Hinv).
      by rewrite insert_id.
    + rewrite decide_True by done. by rewrite delete_id.
  - intros E. rewrite (getUsersInRoom_storable _ _ Hs).
    unfold members_of. rewrite E. simpl. by rewrite elements_empty.
Qed.

(** C10: a join or a leave in room R leaves every other room R' as it
    was: same list of members, and a key exactly when it was one. *)
Theorem C10_frame R R' P reg :
  R ≠ R' →
  (getUsersInRoom R' (after (AddUser R P) reg) = getUsersInRoom R' reg ∧
   (R' ∈ keys (after (AddUser R P) reg) ↔ R' ∈ keys reg)) ∧
  (getUsersInRoom R' (after (RemoveUser R P) reg) = getUsersInRoom R' reg ∧
   (R' ∈ keys (after (RemoveUser R P) reg) ↔ R' ∈ keys reg)).
Proof.
  intros Hne. unfold keys. split; split.
  - apply getUsersInRoom_same. by apply after_AddUser_lookup.
  - rewrite !elem_of_dom. by rewrite after_AddUser_lookup.
  - apply getUsersInRoom_same. by apply after_RemoveUser_lookup.
  - rewrite !elem_of_dom. by rewrite after_RemoveUser_lookup.
Qed.

Lemma C10_frame_witness :
  (getUsersInRoom "jam1" (after (AddUser "jam2" "p") busy_registry)
     = getUsersInRoom "jam1" busy_registry ∧
   ("jam1" ∈ keys (after (AddUser "jam2" "p") busy_registry)
     ↔ "jam1" ∈ keys busy_registry)) ∧
  (getUsersInRoom "jam1" (after (RemoveUser "jam2" "p") busy_registry)
     = getUsersInRoom "jam1" busy_registry ∧
   ("jam1" ∈ keys (after (RemoveUser "jam2" "p") busy_registry)
     ↔ "jam1" ∈ keys busy_registry)).
Proof. apply (C10_frame "jam2" "jam1" "p" busy_registry). by vm_compute. Defined.

End registry_claims.

(** * Properties of the router *)

Section date_facts.

Import Date.

Example toISOString_epoch : toISOString 0 = "1970-01-01T00:00:00.000Z".
Proof. by vm_compute. Qed.

Example toISOString_2023 :
  toISOString 1700000000000 = "2023-11-14T22:13:20.000Z".
Proof. by vm_compute. Qed.

Example toISOString_before_epoch :
  toISOString (-1) = "1969-12-31T23:59:59.999Z".
Proof. by vm_compute. Qed.

Example toISOString_leap_day :
  toISOString 951782400123 = "2000-02-29T00:00:00.123Z".
Proof. by vm_compute. Qed.

Example toISOString_latest :
  toISOString 8640000000000000 = "+275760-09-13T00:00:00.000Z".
Proof. by vm_compute. Qed.

Example toISOString_earliest :
  toISOString (-8640000000000000) = "-271821-04-20T00:00:00.000Z".
Proof. by vm_compute. Qed.

Lemma length_append (a b : string) :
  String.length (a +:+ b) = String.length a + String.length b.
Proof. induction a as [|c a IH]; simpl; [done | by rewrite IH]. Qed.

Lemma length_pad (w : nat) (n : Z) : String.length (pad w n) = w.
Proof.
  revert n. induction w as [|w IH]; intros n; simpl; [done |].
  rewrite length_append, IH. simpl. lia.
Qed.

Lemma length_year_string (y : Z) : (4 ≤ String.length (year_string y))%nat.
Proof.
  unfold year_string.
  destruct ((0 <=? y)%Z && (y <=? 9999)%Z); [by rewrite length_pad |].
  destruct (y <? 0)%Z; rewrite length_append, length_pad; simpl; lia.
Qed.

Lemma length_toISOString (t : Z) : (24 ≤ String.length (toISOString t))%nat.
Proof.
  unfold toISOString. destruct (civil (Day t)) as [[y m] d].
  repeat (rewrite length_append || rewrite length_pad).
  pose proof (length_year_string y). simpl. lia.
Qed.

Lemma toISOString_nonempty (t : Z) : toISOString t ≠ "".
Proof.
  intros H. pose proof (length_toISOString t) as Hl.
  rewrite H in Hl. simpl in Hl. lia.
Qed.

End date_facts.

Section router_facts.

Implicit Types (S T : string) (R : jsval) (st : server) (a : adapter_state).

Lemma elem_of_members T R a : T ∈ members R a ↔ (T, R) ∈ a.
Proof.
  unfold members. rewrite elem_of_map. split.
  - intros ([T' R'] & -> & [HR Hin]%elem_of_filter). simpl in *. by subst.
  - intros Hin. exists (T, R). split; [done |]. by apply elem_of_filter.
Qed.

Lemma elem_of_socket_rooms S R a : R ∈ socket_rooms S a ↔ (S, R) ∈ a.
Proof.
  unfold socket_rooms. rewrite elem_of_map. split.
  - intros ([T' R'] & -> & [HR Hin]%elem_of_filter). simpl in *. by subst.
  - intros Hin. exists (S, R). split; [done |]. by apply elem_of_filter.
Qed.


Lemma elem_of_everyone T R a : T ∈ members R a ∖ ∅ ↔ (T, R) ∈ a.
Proof. rewrite elem_of_difference, elem_of_members. set_solver. Qed.

Lemma emitted_app m st r reg a out :
  m st = (r, Server reg a (sent st ++ out)) → emitted m st = out.
Proof.
  intros H. unfold emitted. rewrite H. simpl.
  by rewrite drop_app_length.
Qed.

Lemma js_or_truthy (n d : string) : n ≠ "" → js_or (jstr n) d = n.
Proof. intros Hn. unfold js_or, truthy. by rewrite decide_False. Qed.

Lemma js_or_falsy (v : jsval) (d : string) :
  v = undefined ∨ v = jstr "" → js_or v d = d.
Proof. by intros [-> | ->]. Qed.

Lemma field_insert_ne (data : gmap string jsval) (k k' : string) (v : jsval) :
  k ≠ k' → field (<[k := v]> data) k' = field data k'.
Proof. intros Hne. unfold field. by rewrite lookup_insert_ne. Qed.

Lemma on_signal_eq k S data st :
  on_signal k S data st =
    (Ok tt,
     Server (rooms st) (adapter st)
       (sent st ++
        [Emission (field data "roomId")
           (members (field data "roomId") (adapter st) ∖ {[S]})
           (signal_name k) (PData data)])).
Proof. by destruct k. Qed.


(** The offer of "s1" to the three sockets of "jam1" reaches the other two. *)
Example offer_skips_the_sender :
  emitted (on_offer "s1" sdp_offer) jam_session
  = [Emission (jstr "jam1") {[ "s2"; "s3" ]} "offer" (PData sdp_offer)].
Proof. by vm_compute. Qed.

(** The chat message of "s1" reaches all three, with the clock's stamp. *)
Example chat_reaches_the_sender :
  emitted (on_chat_message "s1" alice_chat 1700000000000) jam_session
  = [Emission (jstr "jam1") {[ "s1"; "s2"; "s3" ]} "chat-message"
       (PChat "alice" (jstr "hi") "2023-11-14T22:13:20.000Z")].
Proof. by vm_compute. Qed.

(** C8, as amended: a chat event returns normally, changes neither the
    registry nor the adapter, and emits one chat-message to every member of
    the room, the sending session included when it is a member.  The sender
    field is the supplied sender when that is a non-empty string, and
    "Anonymous" when it is missing or the empty string; the message is the
    one received; the timestamp is the ISO string of the server clock, at
    least 24 characters long, whatever timestamp the client put in the
    payload. *)
Theorem C8_chat_echo S data now st :
  ∃ e sndr,
    on_chat_message S data now st =
      (Ok tt, Server (rooms st) (adapter st) (sent st ++ [e])) ∧
    emitted (on_chat_message S data now) st = [e] ∧
    kind e = "chat-message" ∧
    target e = field data "roomId" ∧
    (∀ T, T ∈ recipients e ↔ (T, field data "roomId") ∈ adapter st) ∧
    ((S, field data "roomId") ∈ adapter st → S ∈ recipients e) ∧
    arg e = PChat sndr (field data "message") (Date.toISOString now) ∧
    (∀ s, field data "sender" = jstr s → s ≠ "" → sndr = s) ∧
    (field data "sender" = undefined ∨ field data "sender" = jstr "" →
       sndr = "Anonymous") ∧
    Date.toISOString now ≠ "" ∧
    (24 ≤ String.length (Date.toISOString now))%nat ∧
    (∀ ts, on_chat_message S (<["timestamp" := ts]> data) now st
             = on_chat_message S data now st).
Proof.
  eexists _, _. split; [reflexivity |].
  split; [by eapply emitted_app |].
  simpl. split_and!; try done.
  - intros T. apply elem_of_everyone.
  - intros HS. by apply elem_of_everyone.
  - intros s -> Hs. by apply js_or_truthy.
  - apply js_or_falsy.
  - apply toISOString_nonempty.
  - apply length_toISOString.
  - intros ts. unfold on_chat_message.
    by rewrite !field_insert_ne by done.
Qed.

Lemma C8_chat_echo_witness :
  ∃ e sndr,
    on_chat_message "s1" alice_chat 1700000000000 jam_session =
      (Ok tt,
       Server (rooms jam_session) (adapter jam_session)
         (sent jam_session ++ [e])) ∧
    emitted (on_chat_message "s1" alice_chat 1700000000000) jam_session = [e] ∧
    kind e = "chat-message" ∧
    target e = field alice_chat "roomId" ∧
    (∀ T, T ∈ recipients e
          ↔ (T, field alice_chat "roomId") ∈ adapter jam_session) ∧
    (("s1", field alice_chat "roomId") ∈ adapter jam_session
       → "s1" ∈ recipients e) ∧
    arg e = PChat sndr (field alice_chat "message")
              (Date.toISOString 1700000000000) ∧
    (∀ s, field alice_chat "sender" = jstr s → s ≠ "" → sndr = s) ∧
    (field alice_chat "sender" = undefined ∨
     field alice_chat "sender" = jstr "" → sndr = "Anonymous") ∧
    Date.toISOString 1700000000000 ≠ "" ∧
    (24 ≤ String.length (Date.toISOString 1700000000000))%nat ∧
    (∀ ts, on_chat_message "s1" (<["timestamp" := ts]> alice_chat)
             1700000000000 jam_session
           = on_chat_message "s1" alice_chat 1700000000000 jam_session).
Proof. exact (C8_chat_echo "s1" alice_chat 1700000000000 jam_session). Defined.

(** C8 as stated fails for a sender that is supplied but empty: the
    packet carries "Anonymous", not the empty string that was sent. *)
Lemma C8_counterexample :
  field unnamed_chat "sender" = jstr "" ∧
  ¬ ∃ e m ts,
      e ∈ emitted (on_chat_message "s1" unnamed_chat 0) start ∧
      arg e = PChat "" m ts.
Proof.
  split; [by vm_compute |].
  intros (e & m & ts & He & Ha). vm_compute in He.
  apply list_elem_of_singleton in He. subst e. simpl in Ha. discriminate Ha.
Qed.

(** ** Joining *)

Lemma on_join_room_storable S R name st :
  storable (rooms st) (to_key R) →
  on_join_room S R name st =
    (Ok tt,
     Server (after (AddUser (to_key R) S) (rooms st))
       ({[ (S, R) ]} ∪ adapter st)
       (sent st ++
        [joined_packet S R name ({[ (S, R) ]} ∪ adapter st);
         roster_packet R ({[ (S, R) ]} ∪ adapter st)
           (after (AddUser (to_key R) S) (rooms st))])).
Proof.
  intros Hs.
  unfold on_join_room, bind, socket_join, with_rooms, socket_to, io_in,
    read_rooms, broadcast. simpl.
  rewrite (addUserToRoom_storable _ _ _ Hs). simpl.
  by rewrite <- app_assoc.
Qed.

Lemma on_join_room_throws S R name st :
  ¬ storable (rooms st) (to_key R) →
  ∃ e st', on_join_room S R name st = (Throw e, st').
Proof.
  intros Hs. unfold on_join_room, bind, socket_join, with_rooms. simpl.
  destruct (addUserToRoom_cases (rooms st) (to_key R) S)
    as [[? _] | [_ [e ->]]]; [done |].
  by eexists _, _.
Qed.

(** ** Leaving *)

Lemma leave_room_plain v S R st :
  Object_prototype (to_key R) = None →
  leave_room v S R st =
    (Ok tt,
     Server (after (RemoveUser (to_key R) S) (rooms st)) (adapter st)
       (sent st ++
        left_packet S (adapter st) R ::
        roster_after_leave v R (adapter st)
          (after (RemoveUser (to_key R) S) (rooms st)))).
Proof.
  intros Hp. assert (Hs : storable (rooms st) (to_key R)) by (by right).
  unfold leave_room, bind, with_rooms, socket_to, io_in, read_rooms,
    broadcast, ret. simpl.
  rewrite (removeUserFromRoom_storable _ _ _ Hs). simpl.
  destruct v; simpl; [by rewrite <- app_assoc | done].
Qed.

Lemma members_of_after_remove reg (K K' P : string) :
  storable reg K →
  members_of (after (RemoveUser K P) reg) K' =
    if decide (K = K') then members_of reg K ∖ {[P]} else members_of reg K'.
Proof.
  intros Hs. simpl. rewrite (removeUserFromRoom_storable _ _ _ Hs). simpl.
  unfold members_of at 1.
  destruct (decide (K = K')) as [<- | Hne].
  - case_decide as Hd.
    + by rewrite lookup_delete_eq, Hd.
    + by rewrite lookup_insert_eq.
  - case_decide; [by rewrite lookup_delete_ne | by rewrite lookup_insert_ne].
Qed.

Lemma dom_after_remove reg (K P : string) :
  dom (after (RemoveUser K P) reg) ⊆ dom reg.
Proof.
  simpl.
  destruct (removeUserFromRoom_cases reg K P) as [[_ ->] | [_ [e ->]]];
    simpl; [| done].
  case_decide as Hd.
  - rewrite dom_delete. set_solver.
  - rewrite dom_insert. intros k [->%elem_of_singleton | Hk]%elem_of_union;
      [| done].
    apply elem_of_dom. unfold members_of in Hd.
    destruct (reg !! K); [done |]. exfalso. apply Hd. set_solver.
Qed.

Lemma filter_left_roster v R a reg :
  filter (λ e, kind e = "user-left") (roster_after_leave v R a reg) = [].
Proof. by destruct v. Qed.

Lemma forEach_leave_room v S l st :
  (∀ R, R ∈ l → Object_prototype (to_key R) = None) →
  ∃ reg' out,
    forEach l (leave_room v S) st =
      (Ok tt, Server reg' (adapter st) (sent st ++ out)) ∧
    (∀ k, members_of reg' k ⊆ members_of (rooms st) k) ∧
    dom reg' ⊆ dom (rooms st) ∧
    (∀ R, R ∈ l → S ∉ members_of reg' (to_key R)) ∧
    filter (λ e, kind e = "user-left") out = left_packet S (adapter st) <$> l ∧
    reg' = foldl (λ reg R, after (RemoveUser (to_key R) S) reg) (rooms st) l ∧
    (∀ k T, T ≠ S → T ∈ members_of (rooms st) k → T ∈ members_of reg' k).
Proof.
  revert st. induction l as [|R l IH]; intros st Hl.
  - exists (rooms st), []. split_and!; try done.
    + simpl. unfold ret. rewrite app_nil_r. by destruct st.
    + intros R HR. by apply elem_of_nil in HR.
  - assert (HR : Object_prototype (to_key R) = None)
      by (apply Hl; left).
    assert (Hs : storable (rooms st) (to_key R)) by (by right).
    simpl. unfold bind. rewrite (leave_room_plain _ _ _ _ HR).
    set (reg1 := after (RemoveUser (to_key R) S) (rooms st)).
    set (st1 := Server reg1 (adapter st) _).
    destruct (IH st1)
      as (reg' & out & Hrun & Hmono & Hdom & Hgone & Hout & Hfold & Hkeep).
    { intros R' HR'. apply Hl. by right. }
    assert (Hmono1 : ∀ k, members_of reg1 k ⊆ members_of (rooms st) k).
    { intros k. unfold reg1. rewrite (members_of_after_remove _ _ _ _ Hs).
      case_decide; [subst k |]; set_solver. }
    exists reg', (left_packet S (adapter st) R ::
                  roster_after_leave v R (adapter st) reg1 ++ out).
    split_and!.
    + rewrite Hrun. simpl. f_equal. f_equal.
      rewrite <- app_assoc. simpl. done.
    + intros k. etrans; [apply Hmono | apply Hmono1].
    + etrans; [apply Hdom |]. simpl. apply dom_after_remove.
    + intros R' [-> | HR']%elem_of_cons; [| by apply Hgone].
      intros Hin. apply Hmono in Hin. simpl in Hin. fold reg1 in Hin.
      unfold reg1 in Hin.
      rewrite (members_of_after_remove _ _ _ _ Hs) in Hin.
      rewrite decide_True in Hin by done. set_solver.
    + rewrite filter_cons_True by done.
      rewrite filter_app, filter_left_roster. simpl.
      simpl in Hout. by rewrite Hout.
    + done.
    + intros k T HT Hin. apply Hkeep; [done |]. simpl. fold reg1.
      unfold reg1. rewrite (members_of_after_remove _ _ _ _ Hs).
      case_decide; [subst k |]; set_solver.
Qed.

Lemma on_disconnecting_eq v S st :
  on_disconnecting v S st =
    forEach (filter (λ r, r ≠ jstr S) (elements (socket_rooms S (adapter st))))
      (leave_room v S) st.
Proof. done. Qed.

Lemma elem_of_rooms_to_leave S R st :
  R ∈ filter (λ r, r ≠ jstr S) (elements (socket_rooms S (adapter st)))
  ↔ (S, R) ∈ adapter st ∧ R ≠ jstr S.
Proof.
  rewrite list_elem_of_filter, elem_of_elements, elem_of_socket_rooms.
  tauto.
Qed.

(** ** Reachable states keep inherited names out *)

Lemma plain_names_step v e st st' :
  plain_names st → dispatch v e st = (Ok tt, st') → plain_names st'.
Proof.
  intros [Hreg Had] Hrun.
  destruct e as [id | id R name | id data now | k id data | id];
    simpl in Hrun.
  - injection Hrun as <-. split; [done |]. simpl.
    intros S R [[= -> ->]%elem_of_singleton | Hin]%elem_of_union Hne;
      [done | by eapply Had].
  - destruct (decide (storable (rooms st) (to_key R))) as [Hs | Hs].
    + rewrite (on_join_room_storable _ _ _ _ Hs) in Hrun.
      injection Hrun as <-.
      assert (HR : Object_prototype (to_key R) = None).
      { destruct Hs as [Hown | ?]; [| done].
        apply Hreg. by apply elem_of_dom. }
      split; simpl.
      * rewrite (addUserToRoom_storable _ _ _ Hs). simpl.
        intros k. rewrite dom_insert.
        intros [->%elem_of_singleton | Hk]%elem_of_union; [done | by apply Hreg].
      * intros S R' [[= -> ->]%elem_of_singleton | Hin]%elem_of_union Hne;
          [done | by eapply Had].
    + destruct (on_join_room_throws id R name st Hs) as (e & st2 & Hthrow).
      congruence.
  - injection Hrun as <-. done.
  - rewrite on_signal_eq in Hrun. injection Hrun as <-. done.
  - unfold bind in Hrun. rewrite on_disconnecting_eq in Hrun.
    destruct (forEach_leave_room v id
                (filter (λ r, r ≠ jstr id)
                   (elements (socket_rooms id (adapter st)))) st)
      as (reg' & out & Hloop & _ & Hdom & _ & _ & _ & _).
    { intros R [Hin Hne]%elem_of_rooms_to_leave. by eapply Had. }
    rewrite Hloop in Hrun. injection Hrun as <-. split; simpl.
    + intros k Hk. apply Hreg. by apply Hdom.
    + intros S R [_ Hin]%elem_of_filter. by apply Had.
Qed.

Lemma reachable_plain_names v st : reachable v st → plain_names st.
Proof.
  induction 1 as [| st e st' _ IH _ Hrun].
  - split; [| done]. intros k. simpl. unfold empty_registry.
    rewrite dom_empty. set_solver.
  - by eapply plain_names_step.
Qed.

Lemma listed_step v e st st' :
  plain_names st → listed st → dispatch v e st = (Ok tt, st') → listed st'.
Proof.
  intros [Hreg Had] Hl Hrun.
  destruct e as [id | id R name | id data now | k id data | id];
    simpl in Hrun.
  - injection Hrun as <-. simpl.
    intros T R [[= -> ->]%elem_of_singleton | Hin]%elem_of_union Hne;
      [done | by apply Hl].
  - destruct (decide (storable (rooms st) (to_key R))) as [Hs | Hs].
    + rewrite (on_join_room_storable _ _ _ _ Hs) in Hrun.
      injection Hrun as <-. intros T R' Hin Hne. simpl in *.
      rewrite (addUserToRoom_storable _ _ _ Hs). simpl.
      unfold members_of at 1.
      apply elem_of_union in Hin as [[= -> ->]%elem_of_singleton | Hin].
      * rewrite lookup_insert_eq. simpl.
        apply elem_of_union. right. by apply elem_of_singleton.
      * specialize (Hl _ _ Hin Hne).
        destruct (decide (to_key R = to_key R')) as [Heq | Hk].
        -- rewrite <- Heq in *. rewrite lookup_insert_eq. simpl.
           apply elem_of_union. by left.
        -- by rewrite lookup_insert_ne.
    + destruct (on_join_room_throws id R name st Hs) as (e & st2 & Hthrow).
      congruence.
  - injection Hrun as <-. done.
  - rewrite on_signal_eq in Hrun. injection Hrun as <-. done.
  - unfold bind in Hrun. rewrite on_disconnecting_eq in Hrun.
    destruct (forEach_leave_room v id
                (filter (λ r, r ≠ jstr id)
                   (elements (socket_rooms id (adapter st)))) st)
      as (reg' & out & Hloop & _ & _ & _ & _ & _ & Hkeep).
    { intros R [Hin Hne]%elem_of_rooms_to_leave. by eapply Had. }
    rewrite Hloop in Hrun. injection Hrun as <-. simpl.
    intros T R [HT Hin]%elem_of_filter Hne. simpl in HT.
    apply Hkeep; [done |]. by apply Hl.
Qed.

Lemma reachable_listed v st : reachable v st → listed st.
Proof.
  induction 1 as [| st e st' Hreach IH _ Hrun].
  - intros T R Hin. simpl in Hin. set_solver.
  - eapply listed_step; [| done | done].
    by eapply reachable_plain_names.
Qed.

Lemma exec_reachable v es st st' :
  reachable v st → exec v es st = Some st' → reachable v st'.
Proof.
  revert st. induction es as [|e es IH]; intros st Hst Hrun; simpl in Hrun.
  - by injection Hrun as <-.
  - destruct (accepts st e) eqn:Hacc; [| done].
    destruct (dispatch v e st) as [[[] | err] st1] eqn:Hd; [| done].
    eapply IH; [| done]. by eapply reachable_step.
Qed.

Lemma state_after_reachable v es :
  is_Some (exec v es start) → reachable v (state_after v es).
Proof.
  intros [st Hst]. unfold state_after. rewrite Hst. simpl.
  eapply exec_reachable; [apply reachable_start | done].
Qed.

End router_facts.

(** * Claims about the router *)

Section router_claims.

Implicit Types (S T : string) (R : jsval) (st : server) (a : adapter_state).















End router_claims.

(** * Further properties of the registry *)

Section registry_extras.

Implicit Types (R P Q : string) (reg : registry) (c : call).

Lemma lookup_after_ne c reg (k : string) :
  k ≠ room_of c → after c reg !! k = reg !! k.
Proof.
  intros Hk. destruct c as [R P | R P | R]; simpl in *; [| | done].
  - by apply after_AddUser_lookup.
  - by apply after_RemoveUser_lookup.
Qed.

Lemma lookup_after_eq c reg :
  after c reg !! room_of c = slot_after c (reg !! room_of c).
Proof.
  destruct c as [R P | R P | R]; simpl; [| | done].
  - destruct (addUserToRoom_cases reg R P) as [[Hs ->] | [Hs [e ->]]]; simpl.
    + rewrite lookup_insert_eq. unfold members_of.
      destruct (reg !! R) as [s|] eqn:E; [done |].
      destruct Hs as [[? ?] | ->]; [congruence | done].
    + destruct (reg !! R) as [s|] eqn:E.
      * exfalso. apply Hs. left. by rewrite E.
      * destruct (Object_prototype R) eqn:Hp; [done |].
        exfalso. apply Hs. by right.
  - destruct (removeUserFromRoom_cases reg R P) as [[Hs ->] | [Hs [e ->]]];
      simpl.
    + unfold members_of. destruct (reg !! R) as [s|] eqn:E; simpl.
      * case_decide; [by rewrite lookup_delete_eq | by rewrite lookup_insert_eq].
      * rewrite decide_True by (apply set_eq; set_solver).
        by rewrite lookup_delete_eq.
    + destruct (reg !! R) as [s|] eqn:E; [| done].
      exfalso. apply Hs. left. by rewrite E.
Qed.

Lemma lookup_after c reg (k : string) :
  after c reg !! k =
    if decide (k = room_of c) then slot_after c (reg !! k) else reg !! k.
Proof.
  case_decide as Hk; [subst k; apply lookup_after_eq | by apply lookup_after_ne].
Qed.


Lemma slot_after_twice c (o : option (gset string)) :
  slot_after c (slot_after c o) = slot_after c o.
Proof.
  destruct c as [R P | R P | R]; simpl; [| | done].
  - destruct o as [s|]; simpl.
    + f_equal. set_solver.
    + destruct (Object_prototype R); simpl; [done |]. f_equal. set_solver.
  - destruct o as [s|]; simpl; [| done].
    case_decide as Hd; simpl; [done |].
    rewrite decide_False; [f_equal; set_solver |].
    intros Hd'. apply Hd. set_solver.
Qed.

(** X1: joining twice is joining once, for every room name: the second
    call has the outcome of the first and leaves its registry.  Leaving
    twice leaves the registry of leaving once. *)
Theorem join_and_leave_idempotent R P reg :
  addUserToRoom R P (addUserToRoom R P reg).2 = addUserToRoom R P reg ∧
  after (RemoveUser R P) (after (RemoveUser R P) reg)
    = after (RemoveUser R P) reg.
Proof.
  split; [apply addUserToRoom_idempotent |].
  apply map_eq. intros k. rewrite !lookup_after.
  case_decide; [apply slot_after_twice | done].
Qed.

(** X2: for a room name the registry can store, a join returns; the room
    is then a key, the participant is listed in it exactly once, and the
    room lists whoever it listed before and the participant. *)
Theorem join_lists_once R P reg :
  R ∈ keys reg ∨ Object_prototype R = None →
  ∃ reg',
    addUserToRoom R P reg = (Ok tt, reg') ∧
    R ∈ keys reg' ∧
    occurrences (jstr P) (getUsersInRoom R reg') = 1 ∧
    NoDup (getUsersInRoom R reg') ∧
    (∀ x, x ∈ getUsersInRoom R reg'
          ↔ x = jstr P ∨ x ∈ getUsersInRoom R reg).
Proof.
  intros Hk. assert (Hs : storable reg R).
  { destruct Hk as [Hk | Hk]; [left; by apply elem_of_dom | by right]. }
  eexists. split; [by apply addUserToRoom_storable |].
  assert (Hnd : NoDup (getUsersInRoom R
            (<[R := members_of reg R ∪ {[P]}]> reg))).
  { rewrite getUsersInRoom_storable by apply storable_insert.
    apply (NoDup_fmap_2 _), NoDup_elements. }
  assert (Hin : ∀ x, x ∈ getUsersInRoom R
                      (<[R := members_of reg R ∪ {[P]}]> reg)
                ↔ x = jstr P ∨ x ∈ getUsersInRoom R reg).
  { intros x. rewrite getUsersInRoom_storable by apply storable_insert.
    rewrite (getUsersInRoom_storable _ _ Hs), members_of_insert.
    rewrite !list_elem_of_fmap. split.
    - intros (y & -> & Hy). apply elem_of_elements in Hy.
      apply elem_of_union in Hy as [Hy | ->%elem_of_singleton];
        [right | by left].
      exists y. split; [done |]. by apply elem_of_elements.
    - intros [-> | (y & -> & Hy)].
      + exists P. split; [done |]. apply elem_of_elements. set_solver.
      + exists y. split; [done |]. apply elem_of_elements.
        apply elem_of_elements in Hy. set_solver. }
  split_and!; try done.
  - unfold keys. rewrite dom_insert_L. set_solver.
  - apply occurrences_NoDup; [done |]. apply Hin. by left.
Qed.

Lemma join_lists_once_witness :
  ∃ reg',
    addUserToRoom "jam1" "p" busy_registry = (Ok tt, reg') ∧
    "jam1" ∈ keys reg' ∧
    occurrences (jstr "p") (getUsersInRoom "jam1" reg') = 1 ∧
    NoDup (getUsersInRoom "jam1" reg') ∧
    (∀ x, x ∈ getUsersInRoom "jam1" reg'
          ↔ x = jstr "p" ∨ x ∈ getUsersInRoom "jam1" busy_registry).
Proof. apply (join_lists_once "jam1" "p" busy_registry). by right. Defined.

Lemma join_then_leave_restores R P reg :
  Object_prototype R = None → nonempty_rooms reg →
  P ∉ members_of reg R →
  after (RemoveUser R P) (after (AddUser R P) reg) = reg.
Proof.
  intros Hp Hne HP. assert (Hs : storable reg R) by (by right).
  pose proof (join_then_leave_storable _ _ P Hs) as Hjl.
  unfold join_then_leave, bind in Hjl. simpl.
  destruct (addUserToRoom R P reg) as [[[] | err] reg1] eqn:Ha.
  - simpl. rewrite Hjl. simpl.
    assert (Hm : members_of reg R ∖ {[P]} = members_of reg R)
      by (apply set_eq; set_solver).
    rewrite Hm. unfold members_of in *.
    destruct (reg !! R) as [s|] eqn:E; simpl in *.
    + rewrite decide_False by (by eapply Hne). by rewrite insert_id.
    + rewrite decide_True by done. by rewrite delete_id.
  - rewrite (addUserToRoom_storable _ _ _ Hs) in Ha. done.
Qed.



(** X4: calls on different rooms commute: the registry after both does
    not depend on their order, whichever of the three calls they are and
    whether they return or throw. *)
Theorem calls_on_different_rooms_commute c1 c2 reg :
  room_of c1 ≠ room_of c2 →
  after c1 (after c2 reg) = after c2 (after c1 reg).
Proof.
  intros Hne. apply map_eq. intros k. rewrite !lookup_after.
  repeat case_decide; try done. congruence.
Qed.

Lemma calls_on_different_rooms_commute_witness :
  after (AddUser "jam2" "p") (after (RemoveUser "jam1" "q") busy_registry)
  = after (RemoveUser "jam1" "q") (after (AddUser "jam2" "p") busy_registry).
Proof.
  apply (calls_on_different_rooms_commute
           (AddUser "jam2" "p") (RemoveUser "jam1" "q") busy_registry).
  by vm_compute.
Defined.






(** X6: when the calls throw.  A join or a leave returns exactly when the
    room name is a key of the registry or is not a property of
    Object.prototype; when it throws, the registry is as it was. *)
Theorem registry_calls_throw_exactly R P reg :
  (returned (addUserToRoom R P reg)
     ↔ R ∈ keys reg ∨ Object_prototype R = None) ∧
  (returned (removeUserFromRoom R P reg)
     ↔ R ∈ keys reg ∨ Object_prototype R = None) ∧
  (¬ returned (addUserToRoom R P reg) → (addUserToRoom R P reg).2 = reg) ∧
  (¬ returned (removeUserFromRoom R P reg) →
     (removeUserFromRoom R P reg).2 = reg).
Proof.
  assert (Hst : storable reg R ↔ R ∈ keys reg ∨ Object_prototype R = None).
  { unfold storable, keys. by rewrite elem_of_dom. }
  rewrite <- Hst. unfold returned.
  destruct (addUserToRoom_cases reg R P) as [[Ha ->] | [Ha [e ->]]];
    destruct (removeUserFromRoom_cases reg R P) as [[Hr ->] | [Hr [e' ->]]];
    simpl; tauto.
Qed.

Lemma reachable_registry_plain reg :
  registry_reachable reg →
  nonempty_rooms reg ∧ ∀ R, R ∈ keys reg → Object_prototype R = None.
Proof.
  induction 1 as [| c reg _ [IHne IHp]].
  - split.
    + intros R s. unfold empty_registry. by rewrite lookup_empty.
    + intros R. unfold keys, empty_registry. rewrite dom_empty_L. set_solver.
  - split; [by apply nonempty_rooms_after |].
    intros R. unfold keys. rewrite elem_of_dom, lookup_after.
    case_decide as Hk; [| rewrite <- elem_of_dom; apply IHp].
    intros [s Hs]. subst R.
    destruct (reg !! room_of c) as [s0|] eqn:E.
    { apply IHp. unfold keys. apply elem_of_dom. by rewrite E. }
    destruct c as [R P | R P | R]; simpl in *; [| done | done].
    by destruct (Object_prototype R).
Qed.

(** X7: in every registry built from the empty one by the three calls,
    no key is a property name of Object.prototype, and a room name that is
    not such a property is a key exactly when its list of members is not
    empty. *)
Theorem reachable_registry_keys reg :
  registry_reachable reg →
  (∀ R, R ∈ keys reg → Object_prototype R = None) ∧
  (∀ R, Object_prototype R = None →
     (R ∈ keys reg ↔ getUsersInRoom R reg ≠ [])).
Proof.
  intros [Hne Hp]%reachable_registry_plain. split; [done |].
  intros R HR. rewrite getUsersInRoom_storable by (by right).
  unfold keys, members_of. rewrite elem_of_dom.
  destruct (reg !! R) as [s|] eqn:E; simpl.
  - split; [| by eauto]. intros _ Hnil.
    apply fmap_nil_inv in Hnil. apply elements_empty_inv in Hnil.
    apply (Hne _ _ E). by apply leibniz_equiv.
  - rewrite elements_empty. split; [by intros [? ?] | done].
Qed.

Lemma reachable_registry_keys_witness :
  (∀ R, R ∈ keys (after (AddUser "jam1" "q") empty_registry) →
     Object_prototype R = None) ∧
  (∀ R, Object_prototype R = None →
     (R ∈ keys (after (AddUser "jam1" "q") empty_registry)
      ↔ getUsersInRoom R (after (AddUser "jam1" "q") empty_registry) ≠ [])).
Proof.
  apply (reachable_registry_keys (after (AddUser "jam1" "q") empty_registry)).
  apply registry_call, registry_new.
Defined.

End registry_extras.

(** * Further properties of the router *)

Section router_extras.

Implicit Types (S T : string) (R : jsval) (st : server) (a : adapter_state).

Lemma bind_returns {St A B} (m : M St A) (k : A → M St B)
    (s s' : St) (x : A) :
  m s = (Ok x, s') → bind m k s = k x s'.
Proof. intros H. unfold bind. by rewrite H. Qed.

Lemma dispatch_disconnect v S st :
  plain_names st →
  ∃ reg' out,
    dispatch v (Disconnect S) st =
      (Ok tt,
       Server reg' (filter (λ p, p.1 ≠ S) (adapter st)) (sent st ++ out)) ∧
    on_disconnecting v S st =
      (Ok tt, Server reg' (adapter st) (sent st ++ out)) ∧
    (∀ k, members_of reg' k ⊆ members_of (rooms st) k) ∧
    (∀ R, (S, R) ∈ adapter st → R ≠ jstr S →
       S ∉ members_of reg' (to_key R)) ∧
    reg' = foldl (λ reg R, after (RemoveUser (to_key R) S) reg) (rooms st)
             (filter (λ r, r ≠ jstr S)
                (elements (socket_rooms S (adapter st)))) ∧
    (∀ k T, T ≠ S → T ∈ members_of (rooms st) k → T ∈ members_of reg' k).
Proof.
  intros [_ Had].
  destruct (forEach_leave_room v S
              (filter (λ r, r ≠ jstr S)
                 (elements (socket_rooms S (adapter st)))) st)
    as (reg' & out & Hloop & Hmono & _ & Hgone & _ & Hfold & Hkeep).
  { intros R [Hin Hne]%elem_of_rooms_to_leave. by eapply Had. }
  exists reg', out. split_and!; try done.
  - unfold dispatch.
    erewrite bind_returns; [| rewrite on_disconnecting_eq; exact Hloop].
    done.
  - intros R Hin Hne. apply Hgone. by apply elem_of_rooms_to_leave.
Qed.

Lemma backed_step v e st st' :
  plain_names st → backed st → dispatch v e st = (Ok tt, st') → backed st'.
Proof.
  intros Hplain Hb Hrun.
  destruct e as [id | id R name | id data now | k id data | id].
  - simpl in Hrun. injection Hrun as <-. intros T k Hin.
    destruct (Hb T k Hin) as [-> | (R & HR & HTR)]; [by left | right].
    exists R. split; [done |]. simpl. apply elem_of_union. by right.
  - simpl in Hrun.
    destruct (decide (storable (rooms st) (to_key R))) as [Hs | Hs].
    + rewrite (on_join_room_storable _ _ _ _ Hs) in Hrun.
      injection Hrun as <-. intros T k. simpl.
      rewrite (addUserToRoom_storable _ _ _ Hs). simpl.
      unfold members_of at 1.
      destruct (decide (to_key R = k)) as [<- | Hk].
      * rewrite lookup_insert_eq. simpl.
        intros [Hin | ->%elem_of_singleton]%elem_of_union.
        -- destruct (Hb T _ Hin) as [-> | (R' & HR' & HTR)]; [by left |].
           right. exists R'. split; [done |]. apply elem_of_union. by right.
        -- right. exists R. split; [done |]. apply elem_of_union. left.
           by apply elem_of_singleton.
      * rewrite lookup_insert_ne by done. intros Hin.
        destruct (Hb T k Hin) as [-> | (R' & HR' & HTR)]; [by left |].
        right. exists R'. split; [done |]. apply elem_of_union. by right.
    + destruct (on_join_room_throws id R name st Hs) as (e & st2 & Hthrow).
      congruence.
  - simpl in Hrun. injection Hrun as <-. done.
  - simpl in Hrun. rewrite on_signal_eq in Hrun. injection Hrun as <-. done.
  - destruct (dispatch_disconnect v id st Hplain)
      as (reg' & out & Hd & _ & Hmono & Hgone & _ & _).
    rewrite Hd in Hrun. injection Hrun as <-. intros T k Hin. simpl in *.
    pose proof (Hmono k T Hin) as Hbefore.
    destruct (Hb T k Hbefore) as [-> | (R & HR & HTR)]; [by left |].
    destruct (decide (T = id)) as [-> | HT].
    + destruct (decide (R = jstr id)) as [-> | HRne]; [by left |].
      exfalso. subst k. by eapply Hgone.
    + right. exists R. split; [done |]. by apply elem_of_filter.
Qed.

Lemma leave_room_adapter v S R st :
  adapter (leave_room v S R st).2 = adapter st.
Proof.
  unfold leave_room, bind, with_rooms, socket_to, io_in, read_rooms,
    broadcast, ret.
  destruct (removeUserFromRoom (to_key R) S (rooms st))
    as [[[] | err] reg1]; simpl; [| done].
  by destruct v.
Qed.

Lemma forEach_leave_adapter v S (l : list jsval) st :
  adapter (forEach l (leave_room v S) st).2 = adapter st.
Proof.
  revert st. induction l as [|R l IH]; intros st; [done |].
  simpl. unfold bind.
  pose proof (leave_room_adapter v S R st) as Hl.
  destruct (leave_room v S R st) as [[[] | err] st1]; simpl in *; [| done].
  by rewrite IH.
Qed.

Lemma only_connected_step v e st st' :
  only_connected st → accepts st e = true →
  dispatch v e st = (Ok tt, st') → only_connected st'.
Proof.
  intros Hc Hacc Hrun. unfold only_connected, connected in *.
  destruct e as [id | id R name | id data now | k id data | id].
  - simpl in Hrun. injection Hrun as <-. simpl.
    intros T R [[= -> ->]%elem_of_singleton | Hin]%elem_of_union.
    + apply elem_of_union. left. by apply elem_of_singleton.
    + apply elem_of_union. right. by eapply Hc.
  - simpl in Hrun, Hacc. apply bool_decide_eq_true in Hacc.
    destruct (decide (storable (rooms st) (to_key R))) as [Hs | Hs].
    + rewrite (on_join_room_storable _ _ _ _ Hs) in Hrun.
      injection Hrun as <-. simpl.
      intros T R' [[= -> ->]%elem_of_singleton | Hin]%elem_of_union.
      * apply elem_of_union. by right.
      * apply elem_of_union. right. by eapply Hc.
    + destruct (on_join_room_throws id R name st Hs) as (e & st2 & Hthrow).
      congruence.
  - simpl in Hrun. injection Hrun as <-. done.
  - simpl in Hrun. rewrite on_signal_eq in Hrun. injection Hrun as <-. done.
  - unfold dispatch, bind in Hrun.
    pose proof (forEach_leave_adapter v id
                  (filter (λ r, r ≠ jstr id)
                     (elements (socket_rooms id (adapter st)))) st) as Ha.
    rewrite <- on_disconnecting_eq in Ha.
    destruct (on_disconnecting v id st) as [[[] | err] st1]; [| done].
    injection Hrun as <-. simpl in *. rewrite Ha.
    intros T R [HT Hin]%elem_of_filter. simpl in HT.
    apply elem_of_filter. split; [done |]. by eapply Hc.
Qed.

Lemma nonempty_rooms_foldl S (l : list jsval) (reg : registry) :
  nonempty_rooms reg →
  nonempty_rooms
    (foldl (λ reg R, after (RemoveUser (to_key R) S) reg) reg l).
Proof.
  revert reg. induction l as [|R l IH]; intros reg Hne; [done |].
  simpl. apply IH. by apply (nonempty_rooms_after (RemoveUser _ _)).
Qed.

Lemma nonempty_rooms_step v e st st' :
  plain_names st → nonempty_rooms (rooms st) →
  dispatch v e st = (Ok tt, st') → nonempty_rooms (rooms st').
Proof.
  intros Hplain Hne Hrun.
  destruct e as [id | id R name | id data now | k id data | id].
  - simpl in Hrun. by injection Hrun as <-.
  - simpl in Hrun.
    destruct (decide (storable (rooms st) (to_key R))) as [Hs | Hs].
    + rewrite (on_join_room_storable _ _ _ _ Hs) in Hrun.
      injection Hrun as <-.
      by apply (nonempty_rooms_after (AddUser _ _)).
    + destruct (on_join_room_throws id R name st Hs) as (e & st2 & Hthrow).
      congruence.
  - simpl in Hrun. by injection Hrun as <-.
  - simpl in Hrun. rewrite on_signal_eq in Hrun. by injection Hrun as <-.
  - destruct (dispatch_disconnect v id st Hplain)
      as (reg' & out & Hd & _ & _ & _ & Hfold & _).
    rewrite Hd in Hrun. injection Hrun as <-. simpl. rewrite Hfold.
    by apply nonempty_rooms_foldl.
Qed.

Lemma reachable_consistent v st :
  reachable v st →
  plain_names st ∧ listed st ∧ backed st ∧ only_connected st ∧
  nonempty_rooms (rooms st).
Proof.
  induction 1 as [| st e st' Hreach (Hp & Hl & Hb & Hc & Hne) Hacc Hrun].
  - split_and!.
    + by apply (reachable_plain_names v), reachable_start.
    + by apply (reachable_listed v), reachable_start.
    + intros T k. simpl. unfold members_of, empty_registry.
      rewrite lookup_empty. simpl. set_solver.
    + intros T R. simpl. set_solver.
    + intros R s. simpl. unfold empty_registry. by rewrite lookup_empty.
  - split_and!.
    + by eapply plain_names_step.
    + by eapply listed_step.
    + by eapply backed_step.
    + by eapply only_connected_step.
    + by eapply nonempty_rooms_step.
Qed.





(** X10: a join-room for a room name inherited from Object.prototype.
    In every reachable state the handler throws a TypeError after
    socket.join has run: the socket is in the socket.io room, the registry
    is unchanged and no packet was emitted. *)
Theorem join_room_inherited_name v S R name st i :
  reachable v st →
  Object_prototype (to_key R) = Some i →
  on_join_room S R name st =
    (Throw (TypeError "rooms[roomId].add is not a function"),
     Server (rooms st) ({[ (S, R) ]} ∪ adapter st) (sent st)).
Proof.
  intros [Hreg _]%reachable_plain_names Hi.
  assert (E : rooms st !! to_key R = None).
  { destruct (rooms st !! to_key R) eqn:E; [| done].
    assert (to_key R ∈ dom (rooms st)) as Hk%Hreg
      by (apply elem_of_dom; by rewrite E).
    congruence. }
  unfold on_join_room, bind, socket_join, with_rooms. simpl.
  by rewrite (addUserToRoom_inherited _ _ _ i E Hi).
Qed.

Lemma join_room_inherited_name_witness :
  on_join_room "s1" (jstr "constructor") undefined one_socket =
    (Throw (TypeError "rooms[roomId].add is not a function"),
     Server (rooms one_socket)
       ({[ ("s1", jstr "constructor") ]} ∪ adapter one_socket)
       (sent one_socket)).
Proof.
  apply (join_room_inherited_name server_js "s1" (jstr "constructor")
           undefined one_socket (Builtin 1)); [| reflexivity].
  apply state_after_reachable. vm_compute. eexists. reflexivity.
Defined.

(** X11: joining a room twice.  For a room name that is not a property
    of Object.prototype, a second join-room of the same session changes
    neither the registry nor socket.io's rooms, and emits the same two
    packets as the first one did when the display name is the same. *)
Theorem join_room_twice S R name st :
  Object_prototype (to_key R) = None →
  ∃ st1 st2,
    on_join_room S R name st = (Ok tt, st1) ∧
    on_join_room S R name st1 = (Ok tt, st2) ∧
    rooms st2 = rooms st1 ∧
    adapter st2 = adapter st1 ∧
    emitted (on_join_room S R name) st1 = emitted (on_join_room S R name) st.
Proof.
  intros HR. assert (Hs : storable (rooms st) (to_key R)) by (by right).
  pose proof (on_join_room_storable S R name st Hs) as H1.
  set (st1 := Server (after (AddUser (to_key R) S) (rooms st))
                ({[ (S, R) ]} ∪ adapter st) _) in H1.
  assert (Hs1 : storable (rooms st1) (to_key R)) by (by right).
  pose proof (on_join_room_storable S R name st1 Hs1) as H2.
  assert (Hreg : after (AddUser (to_key R) S) (rooms st1) = rooms st1).
  { simpl. pose proof (addUserToRoom_idempotent (rooms st) (to_key R) S) as Hi.
    by rewrite Hi. }
  assert (Had : {[ (S, R) ]} ∪ adapter st1 = adapter st1).
  { simpl. apply set_eq. intros x. rewrite !elem_of_union. tauto. }
  rewrite Hreg, Had in H2.
  eexists _, _. split; [exact H1 |]. split; [exact H2 |].
  split; [done |]. split; [done |].
  erewrite (emitted_app _ st1) by exact H2.
  erewrite (emitted_app _ st) by exact H1.
  done.
Qed.

Lemma join_room_twice_witness :
  ∃ st1 st2,
    on_join_room "s1" (jstr "jam1") undefined one_socket = (Ok tt, st1) ∧
    on_join_room "s1" (jstr "jam1") undefined st1 = (Ok tt, st2) ∧
    rooms st2 = rooms st1 ∧
    adapter st2 = adapter st1 ∧
    emitted (on_join_room "s1" (jstr "jam1") undefined) st1
      = emitted (on_join_room "s1" (jstr "jam1") undefined) one_socket.
Proof.
  apply (join_room_twice "s1" (jstr "jam1") undefined one_socket).
  reflexivity.
Defined.




Lemma exec_cons v e (es : list event) st st1 :
  accepts st e = true → dispatch v e st = (Ok tt, st1) →
  exec v (e :: es) st = exec v es st1.
Proof. intros Ha Hd. simpl. by rewrite Ha, Hd. Qed.

Lemma singleton_list {A} (l : list A) (x : A) :
  NoDup l → (∀ y, y ∈ l ↔ y = x) → l = [x].
Proof.
  intros Hnd Hl. destruct l as [|y l].
  - assert (x ∈ @nil A) as Hx%elem_of_nil by (by apply Hl). done.
  - assert (y = x) as -> by (apply Hl; left).
    apply NoDup_cons in Hnd as [Hnotin _].
    destruct l as [|z l]; [done |].
    assert (z = x) as -> by (apply Hl; right; left).
    exfalso. apply Hnotin. left.
Qed.

(** X13: a whole session is a round trip.  From a reachable state, when
    a socket that is not connected connects, joins a room other than the
    room of its own identifier (a name that is not a property of
    Object.prototype) and disconnects, all three events are handled, and
    the registry and socket.io's rooms are back to what they were. *)
Theorem session_round_trip v S R name st :
  reachable v st →
  ¬ connected S st →
  to_key R ≠ S →
  Object_prototype (to_key R) = None →
  ∃ st',
    exec v [Connection S; JoinRoom S R name; Disconnect S] st = Some st' ∧
    rooms st' = rooms st ∧
    adapter st' = adapter st.
Proof.
  intros Hreach Hnc HkS HR.
  assert (HRS : R ≠ jstr S) by (intros ->; done).
  pose proof (reachable_consistent _ _ Hreach) as (Hp & Hl & Hb & Hc & Hne).
  assert (Hnone : ∀ R', (S, R') ∉ adapter st).
  { intros R' Hin. apply Hnc. by eapply Hc. }
  (* the connection *)
  set (st1 := Server (rooms st) ({[ (S, jstr S) ]} ∪ adapter st) (sent st)).
  assert (Ha1 : accepts st (Connection S) = true)
    by (by apply bool_decide_eq_true).
  assert (Hd1 : dispatch v (Connection S) st = (Ok tt, st1)) by done.
  (* the join *)
  assert (Hs : storable (rooms st1) (to_key R)) by (by right).
  assert (Ha2 : accepts st1 (JoinRoom S R name) = true).
  { apply bool_decide_eq_true. unfold connected. simpl.
    apply elem_of_union. left. by apply elem_of_singleton. }
  pose proof (on_join_room_storable S R name st1 Hs) as Hd2.
  set (st2 := Server _ _ _) in Hd2.
  assert (Hreach2 : reachable v st2).
  { eapply reachable_step; [| exact Ha2 | exact Hd2].
    eapply reachable_step; [exact Hreach | exact Ha1 | exact Hd1]. }
  (* the disconnect *)
  assert (Ha3 : accepts st2 (Disconnect S) = true).
  { apply bool_decide_eq_true. unfold connected. simpl.
    apply elem_of_union. right. apply elem_of_union. left.
    by apply elem_of_singleton. }
  destruct (dispatch_disconnect v S st2 (reachable_plain_names _ _ Hreach2))
    as (reg' & out & Hd3 & _ & _ & _ & Hfold & _).
  eexists. split.
  { rewrite (exec_cons _ _ _ _ _ Ha1 Hd1).
    rewrite (exec_cons _ _ _ _ _ Ha2 Hd2).
    rewrite (exec_cons _ _ _ _ _ Ha3 Hd3). done. }
  simpl. split.
  - rewrite Hfold. simpl.
    assert (Hrooms : filter (λ r, r ≠ jstr S)
              (elements (socket_rooms S
                 ({[ (S, R) ]} ∪ ({[ (S, jstr S) ]} ∪ adapter st)))) = [R]).
    { apply singleton_list.
      - apply NoDup_filter, NoDup_elements.
      - intros y.
        rewrite list_elem_of_filter, elem_of_elements, elem_of_socket_rooms.
        rewrite !elem_of_union, !elem_of_singleton. split.
        + intros [Hy [[= ->] | [[= ->] | Hin]]]; [done | done |].
          by apply Hnone in Hin.
        + intros ->. split; [done | by left]. }
    rewrite Hrooms. simpl.
    apply (join_then_leave_restores (to_key R) S (rooms st) HR Hne).
    intros Hin. destruct (Hb S _ Hin) as [? | (R' & _ & HSR)]; [done |].
    by apply Hnone in HSR.
  - apply set_eq. intros [T R'].
    rewrite elem_of_filter, !elem_of_union, !elem_of_singleton. simpl.
    split.
    + intros [HT [[= -> ->] | [[= -> ->] | Hin]]]; done.
    + intros Hin. split; [| by right; right].
      intros ->. by apply Hnone in Hin.
Qed.

Lemma session_round_trip_witness :
  ∃ st',
    exec server_js
      [Connection "s4"; JoinRoom "s4" (jstr "jam1") undefined;
       Disconnect "s4"] jam_session = Some st' ∧
    rooms st' = rooms jam_session ∧
    adapter st' = adapter jam_session.
Proof.
  apply (session_round_trip server_js "s4" (jstr "jam1") undefined jam_session).
  - apply state_after_reachable. vm_compute. eexists. reflexivity.
  - vm_compute. discriminate.
  - discriminate.
  - reflexivity.
Defined.

End router_extras.

(** * Properties of the HTTP routes *)

Section http_facts.

Import Http.

Lemma count_char_append c (s t : string) :
  count_char c (s +:+ t) = count_char c s + count_char c t.
Proof. induction s as [|c' s IH]; simpl; [done | rewrite IH; lia]. Qed.

Lemma all_chars_append P (s t : string) :
  all_chars P (s +:+ t) = all_chars P s && all_chars P t.
Proof.
  induction s as [|c' s IH]; simpl; [done |].
  by rewrite IH, andb_assoc.
Qed.

Lemma all_chars_impl (P Q : ascii → bool) (s : string) :
  (∀ c, P c = true → Q c = true) → all_chars P s = true → all_chars Q s = true.
Proof.
  intros HPQ. induction s as [|c s IH]; simpl; [done |].
  intros [Hc Hs]%andb_prop. rewrite (HPQ _ Hc). simpl. by apply IH.
Qed.

Lemma count_char_absent P c (s : string) :
  P c = false → all_chars P s = true → count_char c s = 0.
Proof.
  intros Hc. induction s as [|c' s IH]; simpl; [done |].
  intros [Hc' Hs]%andb_prop. rewrite decide_False by congruence.
  by rewrite IH.
Qed.

Lemma hex_unreserved (n : nat) : n < 16 → unreserved (hex n) = true.
Proof.
  intros Hn. do 16 (destruct n as [|n]; [reflexivity |]). lia.
Qed.

Lemma nat_of_ascii_bound (c : ascii) : nat_of_ascii c < 256.
Proof. destruct c as [[] [] [] [] [] [] [] []]; vm_compute; lia. Qed.

Lemma urlencode_byte_chars (c : ascii) :
  all_chars value_char (urlencode_byte c) = true.
Proof.
  unfold urlencode_byte. case_decide; [done |].
  destruct (unreserved c) eqn:Hu.
  - simpl. unfold value_char. by rewrite Hu.
  - pose proof (nat_of_ascii_bound c) as Hb.
    assert (H1 : nat_of_ascii c / 16 < 16)
      by (apply Nat.Div0.div_lt_upper_bound; lia).
    assert (H2 : nat_of_ascii c mod 16 < 16)
      by (apply Nat.mod_upper_bound; lia).
    apply hex_unreserved in H1, H2.
    unfold percent.
    change (all_chars value_char
              (String "%" (String (hex (nat_of_ascii c / 16))
                 (String (hex (nat_of_ascii c mod 16)) ""))) = true).
    cbn [all_chars]. unfold value_char at 2 3. rewrite H1, H2. done.
Qed.

Lemma urlencode_chars (s : string) : all_chars value_char (urlencode s) = true.
Proof.
  induction s as [|c s IH]; simpl; [done |].
  by rewrite all_chars_append, urlencode_byte_chars, IH.
Qed.

Lemma urlencode_no_separator (s : string) :
  count_char "&" (urlencode s) = 0 ∧ count_char "=" (urlencode s) = 0.
Proof.
  split; eapply (count_char_absent value_char); try apply urlencode_chars;
    reflexivity.
Qed.

Lemma pair_chars (p : string * string) :
  all_chars query_char (urlencode p.1 +:+ "=" +:+ urlencode p.2) = true ∧
  count_char "&" (urlencode p.1 +:+ "=" +:+ urlencode p.2) = 0 ∧
  count_char "=" (urlencode p.1 +:+ "=" +:+ urlencode p.2) = 1.
Proof.
  assert (Hq : ∀ s, all_chars query_char (urlencode s) = true).
  { intros s. eapply all_chars_impl; [| apply urlencode_chars].
    intros c Hc. unfold query_char. by rewrite Hc. }
  destruct (urlencode_no_separator p.1) as [Ha1 He1].
  destruct (urlencode_no_separator p.2) as [Ha2 He2].
  rewrite !all_chars_append, !count_char_append, !Hq, Ha1, Ha2, He1, He2.
  done.
Qed.

Lemma join_shape (P : ascii → bool) (c : ascii) (xs : list string) :
  P c = true →
  Forall (λ x, all_chars P x = true) xs →
  all_chars P (join (String c "") xs) = true ∧
  (∀ d, count_char d (join (String c "") xs) =
        foldr (λ x n, count_char d x + n) 0 xs +
        (if decide (c = d) then pred (length xs) else 0)).
Proof.
  intros Hc. induction 1 as [|x xs Hx Hxs IH]; [by split; [| intros; case_decide] |].
  destruct xs as [|y xs].
  - simpl. split; [done |]. intros d. case_decide; lia.
  - destruct IH as [IHc IHn].
    change (join (String c "") (x :: y :: xs))
      with (x +:+ String c "" +:+ join (String c "") (y :: xs)).
    split.
    + rewrite !all_chars_append, Hx, IHc. simpl. by rewrite Hc.
    + intros d. rewrite !count_char_append, IHn. simpl.
      repeat case_decide; lia.
Qed.

(** A query made by [URLSearchParams] has only the characters of the
    query alphabet, one "=" for each parameter and one "&" between two. *)
Lemma URLSearchParams_shape (pairs : list (string * string)) :
  all_chars query_char (URLSearchParams pairs) = true ∧
  count_char "=" (URLSearchParams pairs) = length pairs ∧
  count_char "&" (URLSearchParams pairs) = pred (length pairs).
Proof.
  unfold URLSearchParams.
  set (f := λ p : string * string, urlencode p.1 +:+ "=" +:+ urlencode p.2).
  assert (Hall : Forall (λ x, all_chars query_char x = true) (map f pairs)).
  { apply Forall_fmap, Forall_true. intros p. apply pair_chars. }
  destruct (join_shape query_char "&" (map f pairs) eq_refl Hall) as [Hc Hn].
  split; [exact Hc |]. rewrite !Hn, length_map.
  assert (He : foldr (λ x n, count_char "=" x + n) 0 (map f pairs)
               = length pairs).
  { clear. induction pairs as [|p pairs IH]; [done |]. simpl.
    rewrite IH. destruct (pair_chars p) as (_ & _ & Hp).
    change (count_char "=" (f p) = 1) in Hp. by rewrite Hp. }
  assert (Ha : foldr (λ x n, count_char "&" x + n) 0 (map f pairs) = 0).
  { clear. induction pairs as [|p pairs IH]; [done |]. simpl.
    rewrite IH. destruct (pair_chars p) as (_ & Hp & _).
    change (count_char "&" (f p) = 0) in Hp. by rewrite Hp. }
  rewrite He, Ha. split; case_decide; try done; lia.
Qed.

Lemma string_append_assoc (s t u : string) :
  (s +:+ t) +:+ u = s +:+ (t +:+ u).
Proof.
  induction s as [|c s IH]; [done |]. exact (f_equal (String c) IH).
Qed.

Lemma urlencode_append (s t : string) :
  urlencode (s +:+ t) = urlencode s +:+ urlencode t.
Proof.
  induction s as [|c s IH]; simpl; [done |].
  by rewrite IH, string_append_assoc.
Qed.

Lemma split_space_cons (s : string) : ∃ p ps, split_space s = p :: ps.
Proof.
  induction s as [|c s (p & ps & IH)]; simpl; [by eexists _, _ |].
  case_decide; [by eexists _, _ |]. rewrite IH. by eexists _, _.
Qed.



Lemma sequence_names (items : list value) (names : list string) :
  Forall2 (λ a n, prop a "name" = Ok (VStr n)) items names →
  sequence (map (λ a, prop a "name") items) = Ok (VStr <$> names).
Proof.
  induction 1 as [|a n items names Ha _ IH]; simpl; [done |].
  by rewrite Ha, IH.
Qed.

Lemma join_values_strings (sep : string) (names : list string) :
  join_values sep (VStr <$> names) = Ok (join sep names).
Proof.
  unfold join_values.
  set (f := λ x, match x with
                 | VUndefined | VNull => Ok ""
                 | _ => ToString x
                 end).
  assert (H : sequence (map f (VStr <$> names)) = Ok names).
  { induction names as [|n names IH]; [done |].
    change (match sequence (map f (VStr <$> names)) with
            | Ok l => Ok (n :: l)
            | Throw e => Throw e
            end = Ok (n :: names)).
    by rewrite IH. }
  by rewrite H.
Qed.

End http_facts.

Section http_extras.

Import Http.

(** X14: the '/login' route of either server file redirects to Spotify's
    authorize page with a query of exactly four parameters, in the order
    response_type, client_id, scope, redirect_uri; whatever the environment
    variables hold (unset ones included), the query has only letters,
    digits and the characters * - . _ + % = &, exactly four "=" and three
    "&": a client id or a redirect address cannot add or split a parameter.
    The scopes are joined by "+", and the other server file's redirect
    address is BACKEND_URL followed by the encoded "/callback". *)
Theorem login_query (env : environment) :
  ∃ q q',
    login env = Redirect ("https://accounts.spotify.com/authorize?" +:+ q) ∧
    login' env = Redirect ("https://accounts.spotify.com/authorize?" +:+ q') ∧
    (all_chars query_char q = true ∧
     count_char "=" q = 4 ∧ count_char "&" q = 3) ∧
    (all_chars query_char q' = true ∧
     count_char "=" q' = 4 ∧ count_char "&" q' = 3) ∧
    q = "response_type=code&client_id="
        +:+ urlencode (js_string (SPOTIFY_CLIENT_ID env))
        +:+ "&scope=user-read-private+user-read-email+user-modify-playback-state+user-read-playback-state+streaming&redirect_uri="
        +:+ urlencode (js_string (SPOTIFY_REDIRECT_URI env)) ∧
    q' = "response_type=code&client_id="
         +:+ urlencode (js_string (SPOTIFY_CLIENT_ID env))
         +:+ "&scope=user-read-private+user-read-email+user-modify-playback-state+user-read-playback-state+user-read-currently-playing&redirect_uri="
         +:+ urlencode (js_string (BACKEND_URL env)) +:+ "%2Fcallback".
Proof.
  eexists _, _. split; [reflexivity |]. split; [reflexivity |].
  split; [apply URLSearchParams_shape |].
  split; [apply URLSearchParams_shape |].
  split; [reflexivity |].
  unfold URLSearchParams. cbn [map fst snd].
  rewrite urlencode_append. reflexivity.
Qed.

(** X15: the bodies of the token requests (the '/callback' route of both
    server files and '/refresh_token') are well-formed form data whatever
    the query and the environment hold: five parameters for the code
    exchange and four for the refresh, with no "=" or "&" other than the
    separators.  A missing or empty code does not stop the '/callback'
    routes: they make the same request, and give the same reply, as for
    the code "null". *)
Theorem token_request_bodies (env : environment) (code token : jsval) :
  (∀ b, b = callback_body env code ∨ b = callback_body' env code →
        all_chars query_char b = true ∧
        count_char "=" b = 5 ∧ count_char "&" b = 4) ∧
  (all_chars query_char (refresh_body env token) = true ∧
   count_char "=" (refresh_body env token) = 4 ∧
   count_char "&" (refresh_body env token) = 3) ∧
  (truthy code = false →
   callback_body env code = callback_body env (jstr "null") ∧
   callback_body' env code = callback_body' env (jstr "null") ∧
   ∀ post, callback env code post = callback env (jstr "null") post ∧
           callback' env code post = callback' env (jstr "null") post).
Proof.
  split; [| split].
  - intros b [-> | ->]; apply URLSearchParams_shape.
  - apply URLSearchParams_shape.
  - intros Hcode.
    assert (Hnull : code_or_null code = code_or_null (jstr "null"))
      by (unfold code_or_null; by rewrite Hcode).
    assert (H1 : callback_body env code = callback_body env (jstr "null"))
      by (unfold callback_body; by rewrite Hnull).
    assert (H2 : callback_body' env code = callback_body' env (jstr "null"))
      by (unfold callback_body'; by rewrite Hnull).
    split_and!; [done | done |]. intros post. unfold callback, callback'.
    by rewrite H1, H2.
Qed.

(** X16: the '/callback' route of the other server file replies in one of
    two ways, whatever the token endpoint answers: status 500 with its
    fixed text, or a redirect to FRONTEND_URL/callback with a query of
    exactly three parameters in which the tokens are form-encoded.  It is
    the 500 when the request is rejected and when the response has no
    body (null or undefined); a body that is an object without the three
    fields is no error: the redirect then carries the text "undefined"
    for each of them. *)
Theorem callback_reply_encoded (env : environment) (code : jsval)
    (post : string → string → axios_outcome) :
  let o := post "https://accounts.spotify.com/api/token"
             (callback_body' env code) in
  let failed := Send 500 "Failed to get access token from Spotify." in
  (callback' env code post = failed ∨
   ∃ q, callback' env code post =
          Redirect (js_string (FRONTEND_URL env) +:+ "/callback?" +:+ q) ∧
        all_chars query_char q = true ∧
        count_char "=" q = 3 ∧ count_char "&" q = 2) ∧
  (∀ st, o = Rejected st → callback' env code post = failed) ∧
  (∀ s d, o = Resolved s d → d = VNull ∨ d = VUndefined →
          callback' env code post = failed) ∧
  (∀ s fields, o = Resolved s (VObj fields) →
     own fields "access_token" = None →
     own fields "refresh_token" = None →
     own fields "expires_in" = None →
     callback' env code post =
       Redirect (js_string (FRONTEND_URL env) +:+
                 "/callback?access_token=undefined&refresh_token=undefined&expires_in=undefined")).
Proof.
  intros o failed. subst failed. unfold callback'. fold o. split_and!.
  - destruct o as [s d | st]; [| by left].
    unfold callback_query'.
    destruct (prop d "access_token") as [va | ?]; [| by left].
    destruct (prop d "refresh_token") as [vr | ?]; [| by left].
    destruct (prop d "expires_in") as [vx | ?]; [| by left].
    destruct (ToString va) as [a | ?]; [| by left].
    destruct (ToString vr) as [r | ?]; [| by left].
    destruct (ToString vx) as [x | ?]; [| by left].
    right. eexists. split; [reflexivity |]. apply URLSearchParams_shape.
  - by intros st ->.
  - by intros s d -> [-> | ->].
  - intros s fields -> Ha Hr Hx. unfold callback_query', prop.
    by rewrite Ha, Hr, Hx.
Qed.




(** X19: what the '/update-now-playing' route emits.  It emits at most one
    now-playing packet, addressed to the room of the request and written
    to every socket in that socket.io room; the packet carries null
    exactly with the replies 204 and 404 "No track currently playing.",
    and otherwise the very track that the route replies with as JSON.
    Nothing is emitted exactly when the reply is one of the two error
    texts; without an access token or a room id the reply is 400 and no
    request is made, whatever Spotify would answer. *)
Theorem now_playing_packets (a : adapter_state) (accessToken roomId : jsval)
    (get : string → string → axios_outcome) :
  let r := update_now_playing a accessToken roomId get in
  (length r.2 ≤ 1)%nat ∧
  (∀ p, p ∈ r.2 →
     np_room p = roomId ∧
     (∀ T, T ∈ np_recipients p ↔ (T, roomId) ∈ a) ∧
     (np_payload p = VNull ∧
      (r.1 = SendEmpty 204 ∨ r.1 = Send 404 "No track currently playing.")
      ∨ r.1 = Json (np_payload p))) ∧
  (r.2 = [] ↔
   (∃ st, r.1 = Send st "Failed to fetch track.") ∨
   r.1 = Send 400 "Missing access token or room ID.") ∧
  (truthy accessToken = false ∨ truthy roomId = false →
   r = (Send 400 "Missing access token or room ID.", [])).
Proof.
  intros r. subst r. unfold update_now_playing.
  destruct (truthy accessToken), (truthy roomId); simpl;
    try (split_and!;
         [lia | by intros p ?%elem_of_nil | by split; [right |]
         | done]).
  assert (Hno : ∀ st : Z,
    (0 ≤ 1)%nat ∧
    (∀ p, p ∈ @nil now_playing →
       np_room p = roomId ∧
       (∀ T, T ∈ np_recipients p ↔ (T, roomId) ∈ a) ∧
       (np_payload p = VNull ∧
        (Send st "Failed to fetch track." = SendEmpty 204 ∨
         Send st "Failed to fetch track." =
           Send 404 "No track currently playing.")
        ∨ Send st "Failed to fetch track." = Json (np_payload p))) ∧
    (@nil now_playing = [] ↔
     (∃ st', Send st "Failed to fetch track." =
             Send st' "Failed to fetch track.") ∨
     Send st "Failed to fetch track." =
       Send 400 "Missing access token or room ID.") ∧
    (true = false ∨ true = false →
     (Send st "Failed to fetch track.", @nil now_playing) =
       (Send 400 "Missing access token or room ID.", []))).
  { intros st. split_and!; [lia | by intros p ?%elem_of_nil | | by intros [|]].
    split; [| done]. intros _. left. by eexists. }
  destruct (get _ _) as [status data | st]; [| apply Hno].
  case_decide.
  { simpl. split_and!; [lia | | | by intros [|]].
    - intros p ->%list_elem_of_singleton. simpl.
      split_and!; [done | intros T; apply elem_of_members | left; auto].
    - split; [done |]. intros [[st [=]] | [=]]. }
  destruct (prop data "item") as [trackData | e]; [| apply Hno].
  destruct (is_track trackData).
  - destruct (build_track trackData) as [track | e]; [| apply Hno].
    simpl. split_and!; [lia | | | by intros [|]].
    + intros p ->%list_elem_of_singleton. simpl.
      split_and!; [done | intros T; apply elem_of_members | by right].
    + split; [done |]. intros [[st [=]] | [=]].
  - simpl. split_and!; [lia | | | by intros [|]].
    + intros p ->%list_elem_of_singleton. simpl.
      split_and!; [done | intros T; apply elem_of_members | left; auto].
    + split; [done |]. intros [[st [=]] | [=]].
Qed.

(** X20: the track that '/update-now-playing' builds.  When Spotify
    resolves, with a status other than 204, with an item of type "track"
    that has artists with string names and an album with an images array,
    the outcome is settled by the first image alone: with no image, or a
    first image that is null, the route replies 500 "Failed to fetch
    track." and emits nothing, although a track is playing; otherwise it
    replies with, and emits to the room, the track whose title is the
    item's name, whose artist is the names joined by ", " and whose
    albumArt is the url of the first image (undefined when it has none). *)
Theorem now_playing_track (a : adapter_state) (accessToken roomId : jsval)
    (get : string → string → axios_outcome)
    (status : Z) (data : value) (fields album : list (string * value))
    (items images : list value) (names : list string) :
  truthy accessToken = true →
  truthy roomId = true →
  get "https://api.spotify.com/v1/me/player/currently-playing"
      ("Bearer " +:+ js_string accessToken) = Resolved status data →
  status ≠ 204%Z →
  prop data "item" = Ok (VObj fields) →
  own fields "type" = Some (VStr "track") →
  own fields "artists" = Some (VArr items) →
  Forall2 (λ artist n, prop artist "name" = Ok (VStr n)) items names →
  own fields "album" = Some (VObj album) →
  own album "images" = Some (VArr images) →
  update_now_playing a accessToken roomId get =
    match images with
    | [] | VNull :: _ | VUndefined :: _ =>
        (Send 500 "Failed to fetch track.", [])
    | image :: _ =>
        let track :=
          VObj [("title", default VUndefined (own fields "name"));
                ("artist", VStr (join ", " names));
                ("albumArt", prop_opt image "url")] in
        (Json track, [NowPlaying roomId (members roomId a) track])
    end.
Proof.
  intros Htoken Hroom Hget Hstatus Hitem Htype Hartists Hnames Halbum Himages.
  unfold update_now_playing. rewrite Htoken, Hroom, Hget. simpl.
  rewrite decide_False by done. rewrite Hitem.
  assert (Hprop : ∀ fs k v, own fs k = Some v → prop (VObj fs) k = Ok v).
  { intros fs k v H. unfold prop. by rewrite H. }
  unfold is_track, prop_opt. rewrite Htype. simpl.
  unfold build_track, artist_names, first_image_url.
  rewrite (Hprop _ _ _ Hartists), (Hprop _ _ _ Halbum), (Hprop _ _ _ Himages).
  rewrite (sequence_names _ _ Hnames), join_values_strings.
  change (prop (VObj fields) "name")
    with (Ok (default VUndefined (own fields "name"))).
  destruct images as [|[] ?]; done.
Qed.

Lemma now_playing_track_witness :
  update_now_playing {[("s1", jstr "jam1"); ("s2", jstr "jam1")]}
    (jstr "tok") (jstr "jam1")
    (λ _ _, Resolved 200
       (VObj [("item",
               spotify_track (VStr "Song") ["A"; "B"]
                 [VObj [("url", VStr "cover.jpg")]])]))
  = (Json (VObj [("title", VStr "Song"); ("artist", VStr "A, B");
                 ("albumArt", VStr "cover.jpg")]),
     [NowPlaying (jstr "jam1")
        (members (jstr "jam1") {[("s1", jstr "jam1"); ("s2", jstr "jam1")]})
        (VObj [("title", VStr "Song"); ("artist", VStr "A, B");
               ("albumArt", VStr "cover.jpg")])]).
Proof.
  exact (now_playing_track
           {[("s1", jstr "jam1"); ("s2", jstr "jam1")]}
           (jstr "tok") (jstr "jam1")
           (λ _ _, Resolved 200
              (VObj [("item",
                      spotify_track (VStr "Song") ["A"; "B"]
                        [VObj [("url", VStr "cover.jpg")]])]))
           200
           (VObj [("item",
                   spotify_track (VStr "Song") ["A"; "B"]
                     [VObj [("url", VStr "cover.jpg")]])])
           [("type", VStr "track"); ("name", VStr "Song");
            ("artists",
             VArr [VObj [("name", VStr "A")]; VObj [("name", VStr "B")]]);
            ("album",
             VObj [("images", VArr [VObj [("url", VStr "cover.jpg")]])])]
           [("images", VArr [VObj [("url", VStr "cover.jpg")]])]
           [VObj [("name", VStr "A")]; VObj [("name", VStr "B")]]
           [VObj [("url", VStr "cover.jpg")]] ["A"; "B"]
           eq_refl eq_refl eq_refl ltac:(lia) eq_refl eq_refl eq_refl
           ltac:(repeat constructor) eq_refl eq_refl).
Defined.

End http_extras.
